(** * The battlefield simulation of [indra/battlefield.py]

    A shallow embedding of the [Soldier] record and of the
    [QuantumBattlefield] controller, followed by the properties of the
    turn pipeline (move, resolve combat, record).

    Python integers are [Z].  The process-wide pseudo-random generator is
    threaded explicitly as a value of type [Rng].  Python floats are
    rationals together with a rounding operator [rnd], which stays a
    parameter of the development: every float operation rounds its exact
    result with it, and the conversion of an integer too large for a
    float raises [OverflowError], as in Python.  The external
    movement policy is a parameter as well, and may use the generator.
    The entries of the soldier list are separate records, as
    [initialize_team] creates them. *)

From stdpp Require Import gmap strings list.
From Stdlib Require Import ZArith QArith Lia Lqa.

Local Open Scope Z_scope.

(** ** The random source *)

(** The generator is an arbitrary sequence of raw outputs and the number
    of outputs consumed so far. *)
Record Rng := { raw : nat → Z; used : nat }.

Definition next_raw (g : Rng) : Z * Rng :=
  (raw g (used g), {| raw := raw g; used := S (used g) |}).

(** [random.randint(lo, hi)]: an integer of the closed range [lo..hi]
    (the callers modelled here pass [lo <= hi]). *)
Definition randint (lo hi : Z) (g : Rng) : Z * Rng :=
  let '(r, g') := next_raw g in (lo + r mod (hi - lo + 1), g').

(** [random.random()]: a multiple of 2^-53 in the half-open interval
    from 0 to 1. *)
Definition random (g : Rng) : Q * Rng :=
  let '(r, g') := next_raw g in (Qmake (r mod 2 ^ 53) (2 ^ 53)%positive, g').

(** ** Soldiers *)

Module Soldier.

Record t := mk {
  x : Z;
  y : Z;
  strength : Z;
  unit_type : string;
  team : string;
  range_dist : Z
}.

(** Manhattan distance to another soldier. *)
Definition distance_to (self other : t) : Z :=
  Z.abs (x self - x other) + Z.abs (y self - y other).

(** Check if this soldier can fight another. *)
Definition can_fight (self other : t) : bool :=
  bool_decide (team self ≠ team other)
  && bool_decide (distance_to self other ≤ range_dist self).

(** The assignment [soldier.x, soldier.y = new_x, new_y]. *)
Definition set_position (self : t) (new_x new_y : Z) : t :=
  mk new_x new_y (strength self) (unit_type self) (team self)
     (range_dist self).

End Soldier.

(** ** The history sink: a dictionary with three list-valued keys *)

Module History.

Record t := mk {
  team_a_count : list Z;
  team_b_count : list Z;
  turn : list Z
}.

Definition empty : t := mk [] [] [].

End History.

(** ** The battlefield *)

Record QuantumBattlefield := Battlefield {
  width : Z;
  height : Z;
  board_size : Z;
  soldiers : list Soldier.t;
  turn : Z;
  history : History.t
}.

(** [QuantumBattlefield(width, height)]. *)
Definition init (w h : Z) : QuantumBattlefield :=
  Battlefield w h (w * h) [] 0 History.empty.

Definition set_soldiers (b : QuantumBattlefield) (l : list Soldier.t)
  : QuantumBattlefield :=
  Battlefield (width b) (height b) (board_size b) l (turn b) (history b).

Definition add_soldier (b : QuantumBattlefield) (s : Soldier.t)
  : QuantumBattlefield :=
  set_soldiers b (soldiers b ++ [s]).

(** [sum(1 for s in soldiers if s.team == label)]. *)
Definition count_team (label : string) (l : list Soldier.t) : Z :=
  foldr Z.add 0 ((λ _, 1) <$> filter (λ s, Soldier.team s = label) l).

Definition record_history (b : QuantumBattlefield) : QuantumBattlefield :=
  let count_a := count_team "Quantum" (soldiers b) in
  let count_b := count_team "B" (soldiers b) in
  let h := history b in
  Battlefield (width b) (height b) (board_size b) (soldiers b) (turn b)
    (History.mk (History.team_a_count h ++ [count_a])
                (History.team_b_count h ++ [count_b])
                (History.turn h ++ [turn b])).

Definition is_battle_over (b : QuantumBattlefield) : bool :=
  let count_a := count_team "Quantum" (soldiers b) in
  let count_b := count_team "Classical" (soldiers b) in
  bool_decide (count_a = 0) || bool_decide (count_b = 0).

(** Returns ['Quantum'], ['Classical'] or [None]. *)
Definition get_winner (b : QuantumBattlefield) : option string :=
  let count_a := count_team "Quantum" (soldiers b) in
  let count_b := count_team "Classical" (soldiers b) in
  if bool_decide (count_a = 0) && bool_decide (count_b = 0) then None
  else if bool_decide (count_a = 0) then Some "Classical"
  else if bool_decide (count_b = 0) then Some "Quantum"
  else None.

Definition get_survivor_count (b : QuantumBattlefield) : Z * Z :=
  let count_a := count_team "Quantum" (soldiers b) in
  let count_b := count_team "Classical" (soldiers b) in
  (count_a, count_b).

(** [enumerate(l)]. *)
Definition enumerate {A} (l : list A) : list (nat * A) := imap pair l.

(** [[s for i, s in enumerate(l) if i not in dead]]. *)
Definition remove_dead (dead : gset nat) (l : list Soldier.t)
  : list Soldier.t :=
  snd <$> filter (λ p, p.1 ∉ dead) (enumerate l).

(** ** Floats and exceptions *)

(** The integers that a float can hold are those of magnitude below
    2^1024 - 2^970: the others round to 2^1024 or beyond, and their
    conversion raises [OverflowError]. *)
Definition float_limit : Z := 2 ^ 1024 - 2 ^ 970.

(** The state of a combat pass: the indices marked dead so far and the
    generator, or the [OverflowError] that has abandoned the pass, with
    the generator as it is then. *)
Inductive pass :=
  | Going (dead_soldiers : gset nat) (g : Rng)
  | Overflow (g : Rng).

(** How [resolve_combat] and [step] end: normally, or with an
    [OverflowError].  Both carry the battlefield and the generator as
    the call leaves them. *)
Inductive completion :=
  | Returned (b : QuantumBattlefield) (g : Rng)
  | OverflowError (b : QuantumBattlefield) (g : Rng).

(** The battlefield and the generator after the call, however it ended. *)
Definition after (c : completion) : QuantumBattlefield :=
  match c with Returned b _ | OverflowError b _ => b end.

Definition rng_after (c : completion) : Rng :=
  match c with Returned _ g | OverflowError _ g => g end.

Section Battle.

(** Rounding of an exact result to a float. *)
Variable rnd : Q → Q.

(** The external movement policy [qlib.quantum_best_move]: from the
    current position to a target, possibly drawing from the generator. *)
Variable quantum_best_move : Z * Z → Rng → (Z * Z) * Rng.

(** The conversion of an integer to a float, as the addition of an
    integer and a float makes it: [None] stands for the [OverflowError]
    that Python raises beyond the range of floats. *)
Definition to_float (n : Z) : option Q :=
  if bool_decide (Z.abs n < float_limit) then Some (rnd (inject_Z n))
  else None.

(** [strength + random.random() * 10], given the value [u] drawn by
    [random.random()]: the product is computed and rounded first, then
    the integer is converted to a float, and the sum is rounded. *)
Definition roll (strength : Z) (u : Q) : option Q :=
  let noise := rnd (u * 10)%Q in
  match to_float strength with
  | Some f => Some (rnd (f + noise)%Q)
  | None => None
  end.

(** [a > b] on floats. *)
Definition float_gt (a b : Q) : bool := negb (Qle_bool a b).

(** *** Movement *)

(** The body of the loop of [move_soldiers] for one soldier. *)
Definition move_soldier (w h : Z) (soldier : Soldier.t) (g : Rng)
  : Soldier.t * Rng :=
  let '(best_move, g') :=
    if bool_decide (Soldier.team soldier = "Quantum") then
      quantum_best_move (Soldier.x soldier, Soldier.y soldier) g
    else
      let '(dx, g1) := randint (-1) 1 g in
      let '(dy, g2) := randint (-1) 1 g1 in
      ((dx, dy), g2) in
  let new_x := Z.max 0 (Z.min (w - 1) best_move.1) in
  let new_y := Z.max 0 (Z.min (h - 1) best_move.2) in
  (Soldier.set_position soldier new_x new_y, g').

(** [moved w h s s']: soldier [s'] is what one iteration of the movement
    loop makes of soldier [s], for some state of the generator. *)
Definition moved (w h : Z) (s s' : Soldier.t) : Prop :=
  ∃ g, s' = (move_soldier w h s g).1.

(** The loop over the soldiers, in list order. *)
Fixpoint move_all (w h : Z) (l : list Soldier.t) (g : Rng)
  : list Soldier.t * Rng :=
  match l with
  | [] => ([], g)
  | soldier :: rest =>
      let '(soldier', g1) := move_soldier w h soldier g in
      let '(rest', g2) := move_all w h rest g1 in
      (soldier' :: rest', g2)
  end.

Definition move_soldiers (b : QuantumBattlefield) (g : Rng)
  : QuantumBattlefield * Rng :=
  let '(l, g') := move_all (width b) (height b) (soldiers b) g in
  (set_soldiers b l, g').

(** *** Combat *)

(** The body of the inner loop: soldier [i] meets soldier [j].  An
    exception leaves both loops: after it no iteration does anything. *)
Definition fight (i : nat) (soldier1 : Soldier.t)
    (st : pass) (p : nat * Soldier.t) : pass :=
  match st with
  | Overflow _ => st
  | Going dead_soldiers g =>
      let '(j, soldier2) := p in
      if bool_decide (j ≤ i)%nat || bool_decide (j ∈ dead_soldiers)
         || bool_decide (i ∈ dead_soldiers)
      then st
      else if Soldier.can_fight soldier1 soldier2 then
        let '(u1, g1) := random g in
        match roll (Soldier.strength soldier1) u1 with
        | None => Overflow g1
        | Some roll1 =>
            let '(u2, g2) := random g1 in
            match roll (Soldier.strength soldier2) u2 with
            | None => Overflow g2
            | Some roll2 =>
                if float_gt roll1 roll2
                then Going ({[ j ]} ∪ dead_soldiers) g2
                else Going ({[ i ]} ∪ dead_soldiers) g2
            end
        end
      else st
  end.

(** The body of the outer loop. *)
Definition fight_all (l : list Soldier.t)
    (st : pass) (p : nat * Soldier.t) : pass :=
  match st with
  | Overflow _ => st
  | Going dead_soldiers _ =>
      let '(i, soldier1) := p in
      if bool_decide (i ∈ dead_soldiers) then st
      else foldl (fight i soldier1) st (enumerate l)
  end.

(** The two loops: the set of dead indices and the generator after, or
    the exception. *)
Definition combat_pass (l : list Soldier.t) (g : Rng) : pass :=
  foldl (fight_all l) (Going ∅ g) (enumerate l).

(** The list is replaced only once the loops are through: an exception
    leaves the battlefield as it was. *)
Definition resolve_combat (b : QuantumBattlefield) (g : Rng) : completion :=
  match combat_pass (soldiers b) g with
  | Going dead_soldiers g' =>
      Returned (set_soldiers b (remove_dead dead_soldiers (soldiers b))) g'
  | Overflow g' => OverflowError b g'
  end.

(** *** One turn *)

Definition incr_turn (b : QuantumBattlefield) : QuantumBattlefield :=
  Battlefield (width b) (height b) (board_size b) (soldiers b)
    (turn b + 1) (history b).

(** An exception in [resolve_combat] ends the turn after the movement:
    the turn is not counted and nothing is recorded. *)
Definition step (b : QuantumBattlefield) (g : Rng) : completion :=
  let '(b1, g1) := move_soldiers b g in
  match resolve_combat b1 g1 with
  | Returned b2 g2 => Returned (record_history (incr_turn b2)) g2
  | OverflowError b2 g2 => OverflowError b2 g2
  end.

(** [n] successive calls of [step], each on the battlefield and the
    generator that the call before has left, however it ended. *)
Fixpoint steps (n : nat) (b : QuantumBattlefield) (g : Rng)
  : QuantumBattlefield * Rng :=
  match n with
  | O => (b, g)
  | S n' =>
      let '(b', g') := steps n' b g in
      (after (step b' g'), rng_after (step b' g'))
  end.

End Battle.

(** ** Team initialization *)

(** How a call that may raise ends: normally, or with the [ValueError] of
    [random.randint] on an empty range.  Both carry the battlefield and
    the generator as they are at that point. *)
Inductive outcome :=
  | Done (b : QuantumBattlefield) (g : Rng)
  | ValueError (b : QuantumBattlefield) (g : Rng).

(** The loop [for _ in range(count)] of [initialize_team], with [n] the
    number of iterations left. *)
Fixpoint spawn (n : nat) (team unit_type : string) (strength range_dist : Z)
    (start_x_range : Z * Z) (b : QuantumBattlefield) (g : Rng) : outcome :=
  match n with
  | O => Done b g
  | S n' =>
      if bool_decide (start_x_range.1 ≤ start_x_range.2) then
        let '(x, g1) := randint start_x_range.1 start_x_range.2 g in
        if bool_decide (0 ≤ height b - 1) then
          let '(y, g2) := randint 0 (height b - 1) g1 in
          let soldier := Soldier.mk x y strength unit_type team range_dist in
          spawn n' team unit_type strength range_dist start_x_range
                (add_soldier b soldier) g2
        else ValueError b g1
      else ValueError b g
  end.

(** [initialize_team(team, composition, start_x_range)], with the items of
    the dictionary [composition] in their order: each is a unit type with
    its (count, strength, range_dist). *)
Fixpoint initialize_team (team : string)
    (composition : list (string * (Z * Z * Z))) (start_x_range : Z * Z)
    (b : QuantumBattlefield) (g : Rng) : outcome :=
  match composition with
  | [] => Done b g
  | (unit_type, (count, strength, range_dist)) :: rest =>
      match spawn (Z.to_nat count) team unit_type strength range_dist
                  start_x_range b g with
      | Done b' g' => initialize_team team rest start_x_range b' g'
      | ValueError b' g' => ValueError b' g'
      end
  end.

(** The number of soldiers a composition asks for, and what it asks of
    them, in order: (unit type, strength, range). *)
Definition requested (composition : list (string * (Z * Z * Z)))
  : list (string * Z * Z) :=
  composition ≫= λ '(unit_type, (count, strength, range_dist)),
    replicate (Z.to_nat count) (unit_type, strength, range_dist).

(** Where [initialize_team] puts a new soldier of [team], on a grid of
    height [h] and with the x-range from [lo] to [hi]. *)
Definition placed (team : string) (lo hi h : Z) (s : Soldier.t) : Prop :=
  Soldier.team s = team
  ∧ lo ≤ Soldier.x s ≤ hi ∧ 0 ≤ Soldier.y s < h.

(** The part of a soldier that the composition fixes. *)
Definition request_of (s : Soldier.t) : string * Z * Z :=
  (Soldier.unit_type s, Soldier.strength s, Soldier.range_dist s).

(** ** Auxiliary notions *)

(** No soldier of the list can fight a soldier listed after it. *)
Definition peaceful (l : list Soldier.t) : Prop :=
  ∀ (i j : nat) (s1 s2 : Soldier.t),
    (i < j)%nat → l !! i = Some s1 → l !! j = Some s2 →
    Soldier.can_fight s1 s2 = false.

(** Two records of the same soldier, up to its position. *)
Definition same_soldier (s s' : Soldier.t) : Prop :=
  Soldier.strength s' = Soldier.strength s
  ∧ Soldier.unit_type s' = Soldier.unit_type s
  ∧ Soldier.team s' = Soldier.team s
  ∧ Soldier.range_dist s' = Soldier.range_dist s.

(** The survivors among the soldiers [l], whose indices start at [k]. *)
Definition survivors_from (k : nat) (dead : gset nat) (l : list Soldier.t)
  : list Soldier.t :=
  snd <$> filter (λ p, p.1 ∉ dead) (imap (λ m, pair (k + m)%nat) l).

(** Every strength of the list can be converted to a float. *)
Definition float_strengths (l : list Soldier.t) : Prop :=
  Forall (λ s, Z.abs (Soldier.strength s) < float_limit) l.

(** The number of soldiers that walk at random. *)
Definition walkers (l : list Soldier.t) : nat :=
  length (filter (λ s, Soldier.team s ≠ "Quantum") l).

(** The generator after [n] further draws. *)
Definition advance (n : nat) (g : Rng) : Rng :=
  {| raw := raw g; used := (used g + n)%nat |}.

(** ** Concrete scenarios *)

(** Generators whose raw outputs are constant. *)
Definition all_zero : Rng := {| raw := λ _, 0; used := 0 |}.
Definition all_one : Rng := {| raw := λ _, 1; used := 0 |}.

(** A rounding that leaves every value as it is, and an external policy
    that keeps every soldier where it stands. *)
Definition no_rounding : Q → Q := λ q, q.
Definition stay : Z * Z → Rng → (Z * Z) * Rng := λ p g, (p, g).

(** The two soldiers of the combat scenario. *)
Definition strong_a : Soldier.t := Soldier.mk 0 0 100 "knight" "Quantum" 5.
Definition weak_b : Soldier.t := Soldier.mk 1 0 1 "soldier" "Classical" 5.
Definition duel : QuantumBattlefield :=
  add_soldier (add_soldier (init 4 4) strong_a) weak_b.

(** The same two soldiers, listed in the other order. *)
Definition duel_reversed : QuantumBattlefield :=
  add_soldier (add_soldier (init 4 4) weak_b) strong_a.

(** Two soldiers of equal strength, in range of each other. *)
Definition even_a : Soldier.t := Soldier.mk 0 0 5 "soldier" "Quantum" 5.
Definition even_b : Soldier.t := Soldier.mk 1 0 5 "soldier" "Classical" 5.
Definition even_duel : QuantumBattlefield :=
  add_soldier (add_soldier (init 4 4) even_a) even_b.

(** A lone soldier of the random-walk team, in the far corner. *)
Definition walker : Soldier.t := Soldier.mk 3 3 10 "archer" "B" 2.
Definition lone_walker : QuantumBattlefield := add_soldier (init 4 4) walker.

(** A lone soldier labelled as [get_survivor_count] expects. *)
Definition classical : Soldier.t := Soldier.mk 2 2 10 "soldier" "Classical" 1.
Definition lone_classical : QuantumBattlefield :=
  add_soldier (init 4 4) classical.

(** A grid without any cell, holding one soldier. *)
Definition no_grid : QuantumBattlefield := add_soldier (init 0 0) classical.

(** Two enemies at distance 10, each of range 1. *)
Definition near_a : Soldier.t := Soldier.mk 0 0 10 "soldier" "Quantum" 1.
Definition far_b : Soldier.t := Soldier.mk 6 4 10 "soldier" "Classical" 1.
Definition standoff : QuantumBattlefield :=
  add_soldier (add_soldier (init 8 8) near_a) far_b.

(** Three soldiers of strength 10 and range 2. *)
Definition three_soldiers : list (string * (Z * Z * Z)) :=
  [("soldier", (3, 10, 2))].

(** An enemy too strong for a float, next to [strong_a]. *)
Definition giant : Soldier.t :=
  Soldier.mk 1 0 (10 ^ 400) "knight" "Classical" 5.
Definition giant_duel : QuantumBattlefield :=
  add_soldier (add_soldier (init 4 4) strong_a) giant.

(** What the development asks of the rounding of floats: it is monotone,
    and the integers up to 2^53 in magnitude are floats. *)
Definition float_rounding (rnd : Q → Q) : Prop :=
  (∀ a b : Q, (a <= b)%Q → (rnd a <= rnd b)%Q)
  ∧ (∀ n : Z, Z.abs n ≤ 2 ^ 53 → (rnd (inject_Z n) == inject_Z n)%Q).

(** * Properties *)

(** ** Counting *)

Lemma count_team_nil label : count_team label [] = 0.
Proof. reflexivity. Qed.

Lemma count_team_cons label s l :
  count_team label (s :: l) =
  (if bool_decide (Soldier.team s = label) then 1 else 0) + count_team label l.
Proof.
  unfold count_team. rewrite filter_cons.
  case_bool_decide; case_decide; try done.
Qed.

Lemma count_team_nonneg label l : 0 ≤ count_team label l.
Proof.
  induction l as [|s l IH]; [done|].
  rewrite count_team_cons. case_bool_decide; lia.
Qed.

Lemma count_team_sublist label l1 l2 :
  l1 `sublist_of` l2 → count_team label l1 ≤ count_team label l2.
Proof.
  induction 1 as [|s l1 l2 _ IH|s l1 l2 _ IH]; [done| |];
    rewrite !count_team_cons; try case_bool_decide; lia.
Qed.

(** A team has no live soldier exactly when its count is zero. *)
Lemma count_team_zero label l :
  count_team label l = 0 ↔ Forall (λ s, Soldier.team s ≠ label) l.
Proof.
  induction l as [|s l IH]; [by split|].
  rewrite count_team_cons, Forall_cons. pose proof (count_team_nonneg label l).
  case_bool_decide as Ht; split.
  - lia.
  - intros [Hs _]. done.
  - intros Hc. split; [done|]. apply IH. lia.
  - intros [_ Hl]. apply IH in Hl. lia.
Qed.

(** ** Sublists *)

Lemma Forall_of_sublist {A} (P : A → Prop) (l1 l2 : list A) :
  l1 `sublist_of` l2 → Forall P l2 → Forall P l1.
Proof.
  induction 1 as [|a l1 l2 _ IH|a l1 l2 _ IH]; intros HF; [done| |].
  - apply Forall_cons in HF as [Ha HF]. constructor; auto.
  - apply Forall_cons in HF as [_ HF]. auto.
Qed.

(** ** Removal of the dead *)

Lemma enumerate_snd {A} (l : list A) : (enumerate l).*2 = l.
Proof.
  unfold enumerate. rewrite fmap_imap.
  change (λ n : nat, snd ∘ pair n) with (@const (A → A) nat id).
  rewrite imap_const. apply list_fmap_id.
Qed.

Lemma remove_dead_sublist dead l : remove_dead dead l `sublist_of` l.
Proof.
  unfold remove_dead. rewrite <- (enumerate_snd l) at 2.
  apply fmap_sublist, sublist_filter.
Qed.

(** ** The random source stays in range *)

Lemma randint_range lo hi g : lo ≤ hi → lo ≤ (randint lo hi g).1 ≤ hi.
Proof.
  intros Hle. unfold randint, next_raw. simpl.
  pose proof (Z.mod_pos_bound (raw g (used g)) (hi - lo + 1)). lia.
Qed.

Lemma random_range g : (0 <= (random g).1)%Q ∧ ((random g).1 < 1)%Q.
Proof.
  unfold random, next_raw, Qle, Qlt. simpl.
  pose proof (Z.mod_pos_bound (raw g (used g)) (2 ^ 53)). lia.
Qed.

Section BattleProperties.

Variable rnd : Q → Q.
Variable quantum_best_move : Z * Z → Rng → (Z * Z) * Rng.

(** ** Movement *)

Lemma move_all_moved w h l g :
  Forall2 (moved quantum_best_move w h) l
          (move_all quantum_best_move w h l g).1.
Proof.
  revert g. induction l as [|s l IH]; intros g; simpl; [constructor|].
  destruct (move_soldier quantum_best_move w h s g) as [s' g1] eqn:Hs.
  specialize (IH g1).
  destruct (move_all quantum_best_move w h l g1) as [l' g2].
  simpl in *. constructor; [|done]. exists g. by rewrite Hs.
Qed.

Lemma moved_team w h s s' :
  moved quantum_best_move w h s s' → Soldier.team s' = Soldier.team s.
Proof.
  intros [g ->]. unfold move_soldier.
  case_bool_decide.
  - by destruct (quantum_best_move _ g) as [best_move g1].
  - destruct (randint (-1) 1 g) as [dx g1].
    by destruct (randint (-1) 1 g1) as [dy g2].
Qed.

Lemma moved_in_grid w h s s' :
  moved quantum_best_move w h s s' → 0 < w → 0 < h →
  0 ≤ Soldier.x s' < w ∧ 0 ≤ Soldier.y s' < h.
Proof.
  intros [g ->] Hw Hh. unfold move_soldier.
  case_bool_decide.
  - destruct (quantum_best_move _ g) as [best_move g1]. simpl. lia.
  - destruct (randint (-1) 1 g) as [dx g1].
    destruct (randint (-1) 1 g1) as [dy g2]. simpl. lia.
Qed.

(** The target of a soldier that is not on team "Quantum" is the pair of
    offsets itself, so its clipped position does not depend on where the
    soldier was. *)
Lemma moved_random_walk w h s s' :
  moved quantum_best_move w h s s' → Soldier.team s ≠ "Quantum" →
  (Soldier.x s' = 0 ∨ Soldier.x s' = 1)
  ∧ (Soldier.y s' = 0 ∨ Soldier.y s' = 1).
Proof.
  intros [g ->] Ht. unfold move_soldier.
  rewrite bool_decide_eq_false_2 by done.
  pose proof (randint_range (-1) 1 g ltac:(lia)) as Hx.
  destruct (randint (-1) 1 g) as [dx g1].
  pose proof (randint_range (-1) 1 g1 ltac:(lia)) as Hy.
  destruct (randint (-1) 1 g1) as [dy g2]. simpl in *. lia.
Qed.

(** The random-walk branch written out: the two offsets are the target. *)
Lemma move_soldier_other_team w h s g :
  Soldier.team s ≠ "Quantum" →
  let dx := (randint (-1) 1 g).1 in
  let dy := (randint (-1) 1 (randint (-1) 1 g).2).1 in
  (move_soldier quantum_best_move w h s g).1
  = Soldier.set_position s (Z.max 0 (Z.min (w - 1) dx))
                           (Z.max 0 (Z.min (h - 1) dy)).
Proof.
  intros Ht dx dy. subst dx dy. unfold move_soldier.
  rewrite bool_decide_eq_false_2 by done.
  destruct (randint (-1) 1 g) as [d1 g1]. simpl.
  by destruct (randint (-1) 1 g1) as [d2 g2].
Qed.

Lemma move_all_count label w h l g :
  count_team label (move_all quantum_best_move w h l g).1
  = count_team label l.
Proof.
  pose proof (move_all_moved w h l g) as HF.
  induction HF as [|s s' l l' Hs _ IH]; [done|].
  rewrite !count_team_cons, IH. by rewrite (moved_team _ _ _ _ Hs).
Qed.

Lemma move_soldiers_soldiers b g :
  soldiers (move_soldiers quantum_best_move b g).1
  = (move_all quantum_best_move (width b) (height b) (soldiers b) g).1.
Proof.
  unfold move_soldiers.
  by destruct
    (move_all quantum_best_move (width b) (height b) (soldiers b) g).
Qed.

Lemma move_soldiers_frame b g :
  let b' := (move_soldiers quantum_best_move b g).1 in
  width b' = width b ∧ height b' = height b
  ∧ turn b' = turn b ∧ history b' = history b.
Proof.
  unfold move_soldiers.
  by destruct
    (move_all quantum_best_move (width b) (height b) (soldiers b) g).
Qed.

(** ** Floats *)

Lemma float_limit_above : 2 ^ 53 < float_limit.
Proof. reflexivity. Qed.

Lemma to_float_Some n :
  Z.abs n < float_limit → to_float rnd n = Some (rnd (inject_Z n)).
Proof. intros Hn. unfold to_float. by rewrite bool_decide_eq_true_2. Qed.

Lemma roll_Some strength u :
  Z.abs strength < float_limit →
  roll rnd strength u
  = Some (rnd (rnd (inject_Z strength) + rnd (u * 10))%Q).
Proof. intros Hn. unfold roll. by rewrite to_float_Some. Qed.

Lemma roll_None strength u :
  roll rnd strength u = None ↔ float_limit ≤ Z.abs strength.
Proof.
  unfold roll, to_float. case_bool_decide; split; try done; lia.
Qed.

Lemma float_gt_true a b : (b < a)%Q → float_gt a b = true.
Proof.
  intros Hlt. unfold float_gt.
  destruct (Qle_bool a b) eqn:Hle; [|done].
  apply Qle_bool_iff in Hle. lra.
Qed.

Lemma float_gt_false a b : (a <= b)%Q → float_gt a b = false.
Proof.
  intros Hle. unfold float_gt. apply Qle_bool_iff in Hle. by rewrite Hle.
Qed.

(** The roll of a strength that is exactly a float is computed, and lies
    between the strength and the strength plus ten. *)
Lemma roll_bounds strength u :
  float_rounding rnd → - 2 ^ 53 ≤ strength ≤ 2 ^ 53 - 10 →
  (0 <= u)%Q → (u < 1)%Q →
  ∃ r, roll rnd strength u = Some r
       ∧ (inject_Z strength <= r)%Q ∧ (r <= inject_Z (strength + 10))%Q.
Proof.
  intros [Hmono Hexact] Hs Hu0 Hu1.
  pose proof float_limit_above as Hlim.
  eexists. split; [apply roll_Some; lia|].
  pose proof (Hexact strength ltac:(lia)) as Es.
  pose proof (Hexact (strength + 10) ltac:(lia)) as Es10.
  pose proof (Hexact 0 ltac:(lia)) as E0.
  pose proof (Hexact 10 ltac:(lia)) as E10.
  pose proof (Hmono 0%Q (u * 10)%Q ltac:(lra)) as Hlo.
  pose proof (Hmono (u * 10)%Q 10%Q ltac:(lra)) as Hhi.
  change 0%Q with (inject_Z 0) in Hlo. change 10%Q with (inject_Z 10) in Hhi.
  rewrite E0 in Hlo. rewrite E10 in Hhi.
  rewrite inject_Z_plus in Es10. change (inject_Z 10) with 10%Q in *.
  change (inject_Z 0) with 0%Q in *.
  split.
  - rewrite <- Es at 1. apply Hmono. lra.
  - rewrite inject_Z_plus. change (inject_Z 10) with 10%Q.
    rewrite <- Es10. apply Hmono. lra.
Qed.

(** ** Combat *)

Lemma resolve_combat_after b g :
  soldiers (after (resolve_combat rnd b g))
  = match combat_pass rnd (soldiers b) g with
    | Going dead _ => remove_dead dead (soldiers b)
    | Overflow _ => soldiers b
    end.
Proof.
  unfold resolve_combat. by destruct (combat_pass rnd (soldiers b) g).
Qed.

Lemma resolve_combat_sublist b g :
  soldiers (after (resolve_combat rnd b g)) `sublist_of` soldiers b.
Proof.
  rewrite resolve_combat_after.
  destruct (combat_pass rnd (soldiers b) g); [apply remove_dead_sublist|done].
Qed.

Lemma resolve_combat_frame b g :
  let b' := after (resolve_combat rnd b g) in
  width b' = width b ∧ height b' = height b
  ∧ turn b' = turn b ∧ history b' = history b.
Proof.
  unfold resolve_combat. by destruct (combat_pass rnd (soldiers b) g).
Qed.

(** An exception leaves the battlefield as it was. *)
Lemma resolve_combat_raised b g b' g' :
  resolve_combat rnd b g = OverflowError b' g' → b' = b.
Proof.
  unfold resolve_combat.
  destruct (combat_pass rnd (soldiers b) g); by intros [= <- <-].
Qed.

(** ** One turn *)

(** The soldiers after a turn were all moved by the movement loop, and
    form a sublist of the moved list. *)
Lemma step_soldiers b g :
  soldiers (after (step rnd quantum_best_move b g))
  `sublist_of` soldiers (move_soldiers quantum_best_move b g).1.
Proof.
  unfold step.
  destruct (move_soldiers quantum_best_move b g) as [b1 g1].
  pose proof (resolve_combat_sublist b1 g1) as Hs.
  by destruct (resolve_combat rnd b1 g1) as [b2 g2|b2 g2].
Qed.

Lemma step_frame b g :
  let b' := after (step rnd quantum_best_move b g) in
  width b' = width b ∧ height b' = height b.
Proof.
  unfold step.
  pose proof (move_soldiers_frame b g) as Hm.
  destruct (move_soldiers quantum_best_move b g) as [b1 g1].
  pose proof (resolve_combat_frame b1 g1) as Hr.
  destruct (resolve_combat rnd b1 g1) as [b2 g2|b2 g2]; simpl in *;
    destruct Hm as (Hw1 & Hh1 & _), Hr as (Hw2 & Hh2 & _);
    split; congruence.
Qed.

(** The bookkeeping of a turn: when [step] returns, the counter and the
    three lists of the history, written with the labels that
    [record_history] counts; when it raises, neither has changed. *)
Lemma step_bookkeeping b g :
  match step rnd quantum_best_move b g with
  | Returned b' _ =>
      turn b' = turn b + 1
      ∧ History.team_a_count (history b')
        = History.team_a_count (history b)
          ++ [count_team "Quantum" (soldiers b')]
      ∧ History.team_b_count (history b')
        = History.team_b_count (history b) ++ [count_team "B" (soldiers b')]
      ∧ History.turn (history b') = History.turn (history b) ++ [turn b + 1]
  | OverflowError b' _ => turn b' = turn b ∧ history b' = history b
  end.
Proof.
  unfold step.
  pose proof (move_soldiers_frame b g) as Hm.
  destruct (move_soldiers quantum_best_move b g) as [b1 g1].
  pose proof (resolve_combat_frame b1 g1) as Hr.
  destruct (resolve_combat rnd b1 g1) as [b2 g2|b2 g2]; simpl in *;
    destruct Hm as (_ & _ & Ht1 & Hh1), Hr as (_ & _ & Ht2 & Hh2).
  - by rewrite Ht2, Ht1, Hh2, Hh1.
  - by rewrite Ht2, Ht1, Hh2, Hh1.
Qed.

Lemma step_count_le label b g :
  count_team label (soldiers (after (step rnd quantum_best_move b g)))
  ≤ count_team label (soldiers b).
Proof.
  etrans; [apply count_team_sublist, step_soldiers|].
  rewrite move_soldiers_soldiers, move_all_count. lia.
Qed.

(** ** Single fights *)

Lemma fight_skip i s1 j s2 dead g :
  (j ≤ i)%nat ∨ j ∈ dead ∨ i ∈ dead →
  fight rnd i s1 (Going dead g) (j, s2) = Going dead g.
Proof.
  intros H. unfold fight.
  destruct H as [H|[H|H]]; rewrite (bool_decide_eq_true_2 _ H);
    by rewrite ?orb_true_r.
Qed.

Lemma fight_engaged i s1 j s2 dead g :
  (i < j)%nat → j ∉ dead → i ∉ dead → Soldier.can_fight s1 s2 = true →
  fight rnd i s1 (Going dead g) (j, s2)
  = match roll rnd (Soldier.strength s1) (random g).1 with
    | None => Overflow (random g).2
    | Some roll1 =>
        match roll rnd (Soldier.strength s2) (random (random g).2).1 with
        | None => Overflow (random (random g).2).2
        | Some roll2 =>
            Going (if float_gt roll1 roll2
                   then {[ j ]} ∪ dead else {[ i ]} ∪ dead)
                  (random (random g).2).2
        end
    end.
Proof.
  intros Hij Hj Hi Hc. unfold fight.
  rewrite (bool_decide_eq_false_2 (j ≤ i)%nat) by lia.
  rewrite !bool_decide_eq_false_2 by done. cbn [orb]. rewrite Hc.
  destruct (random g) as [u1 g1]. cbn [fst snd].
  destruct (roll rnd (Soldier.strength s1) u1); [|done].
  destruct (random g1) as [u2 g2]. cbn [fst snd].
  destruct (roll rnd (Soldier.strength s2) u2); [|done].
  by destruct (float_gt _ _).
Qed.

Lemma fight_all_alive l i s1 dead g :
  i ∉ dead →
  fight_all rnd l (Going dead g) (i, s1)
  = foldl (fight rnd i s1) (Going dead g) (enumerate l).
Proof.
  intros Hi. unfold fight_all.
  by rewrite bool_decide_eq_false_2 by done.
Qed.

Lemma fight_all_dead l i s1 dead g :
  i ∈ dead → fight_all rnd l (Going dead g) (i, s1) = Going dead g.
Proof.
  intros Hi. unfold fight_all.
  by rewrite bool_decide_eq_true_2 by done.
Qed.

Lemma combat_pass_pair s1 s2 g :
  combat_pass rnd [s1; s2] g
  = fight_all rnd [s1; s2]
      (fight_all rnd [s1; s2] (Going ∅ g) (0%nat, s1)) (1%nat, s2).
Proof. reflexivity. Qed.

Lemma fight_pair i s st s1 s2 :
  foldl (fight rnd i s) st (enumerate [s1; s2])
  = fight rnd i s (fight rnd i s st (0%nat, s1)) (1%nat, s2).
Proof. reflexivity. Qed.

(** The pass over two soldiers in range of each other, when both rolls
    are computed: one fight, and the rolls decide which index is
    marked. *)
Lemma combat_pass_duel s1 s2 g roll1 roll2 :
  Soldier.can_fight s1 s2 = true →
  roll rnd (Soldier.strength s1) (random g).1 = Some roll1 →
  roll rnd (Soldier.strength s2) (random (random g).2).1 = Some roll2 →
  combat_pass rnd [s1; s2] g
  = Going (if float_gt roll1 roll2 then {[ 1%nat ]} ∪ ∅ else {[ 0%nat ]} ∪ ∅)
          (random (random g).2).2.
Proof.
  intros Hc H1 H2. rewrite combat_pass_pair.
  rewrite fight_all_alive, fight_pair by apply not_elem_of_empty.
  rewrite fight_skip by (left; lia).
  rewrite fight_engaged by (done || lia || apply not_elem_of_empty).
  rewrite H1, H2.
  destruct (float_gt roll1 roll2).
  - by rewrite fight_all_dead
      by (apply elem_of_union_l, elem_of_singleton_2; done).
  - rewrite fight_all_alive
      by (rewrite elem_of_union, elem_of_singleton, elem_of_empty; lia).
    rewrite fight_pair. by rewrite !fight_skip by (left; lia).
Qed.

Lemma remove_dead_duel_second s1 s2 :
  remove_dead ({[ 1%nat ]} ∪ ∅) [s1; s2] = [s1].
Proof.
  unfold remove_dead.
  change (enumerate [s1; s2]) with [(0%nat, s1); (1%nat, s2)].
  rewrite filter_cons_True
    by (simpl; rewrite elem_of_union, elem_of_singleton, elem_of_empty; lia).
  rewrite filter_cons_False; [done|].
  simpl. intros Hn. apply Hn, elem_of_union_l, elem_of_singleton_2. done.
Qed.

Lemma remove_dead_duel_first s1 s2 :
  remove_dead ({[ 0%nat ]} ∪ ∅) [s1; s2] = [s2].
Proof.
  unfold remove_dead.
  change (enumerate [s1; s2]) with [(0%nat, s1); (1%nat, s2)].
  rewrite filter_cons_False.
  2:{ simpl. intros Hn. apply Hn, elem_of_union_l, elem_of_singleton_2. done. }
  rewrite filter_cons_True; [done|].
  simpl. rewrite elem_of_union, elem_of_singleton, elem_of_empty. lia.
Qed.

(** ** The claims *)

(** C4, as amended: on a grid with at least one column and one row,
    every soldier alive after [step] stands inside the grid, whatever
    its position before and whatever the movement policies return, and
    whether the call returns or raises. *)
Theorem step_positions_in_grid b g :
  0 < width b → 0 < height b →
  let b' := after (step rnd quantum_best_move b g) in
  Forall (λ s, 0 ≤ Soldier.x s < width b' ∧ 0 ≤ Soldier.y s < height b')
         (soldiers b').
Proof.
  intros Hw Hh b'. subst b'.
  pose proof (step_frame b g) as Hf. cbv zeta in Hf. destruct Hf as [-> ->].
  apply (Forall_of_sublist _ _ _ (step_soldiers b g)).
  rewrite move_soldiers_soldiers.
  pose proof (move_all_moved (width b) (height b) (soldiers b) g) as HF.
  induction HF as [|s s' l l' Hs _ IH]; constructor; [|done].
  by apply (moved_in_grid _ _ _ _ Hs).
Qed.

(** C10: on a grid of width and height at least 2, after [move_soldiers],
    and hence after [step], every soldier whose team is not "Quantum" has
    x in {0, 1} and y in {0, 1}, wherever it stood before the move. *)
Theorem other_team_confined_to_corner b g :
  2 ≤ width b → 2 ≤ height b →
  let corner := λ s : Soldier.t,
    Soldier.team s ≠ "Quantum" →
    (Soldier.x s = 0 ∨ Soldier.x s = 1)
    ∧ (Soldier.y s = 0 ∨ Soldier.y s = 1) in
  Forall corner (soldiers (move_soldiers quantum_best_move b g).1)
  ∧ Forall corner (soldiers (after (step rnd quantum_best_move b g))).
Proof.
  intros _ _ corner.
  assert (Forall corner (soldiers (move_soldiers quantum_best_move b g).1))
    as Hmove.
  { rewrite move_soldiers_soldiers.
    pose proof (move_all_moved (width b) (height b) (soldiers b) g) as HF.
    induction HF as [|s s' l l' Hs _ IH]; constructor; [|done].
    intros Ht. apply (moved_random_walk _ _ _ _ Hs).
    by rewrite <- (moved_team _ _ _ _ Hs). }
  split; [done|].
  by apply (Forall_of_sublist _ _ _ (step_soldiers b g)).
Qed.

(** C9: [resolve_combat] only removes soldiers: the list after the call
    is a sublist of the list before, so every survivor is one of the
    former records with all its fields, in the same relative order; the
    rest of the battlefield is untouched.  The list after is the list
    before without the indices marked dead, and the list before itself
    when the call raises. *)
Theorem resolve_combat_only_removes b g :
  let b' := after (resolve_combat rnd b g) in
  soldiers b' `sublist_of` soldiers b
  ∧ soldiers b'
    = match combat_pass rnd (soldiers b) g with
      | Going dead _ => remove_dead dead (soldiers b)
      | Overflow _ => soldiers b
      end
  ∧ width b' = width b ∧ height b' = height b
  ∧ turn b' = turn b ∧ history b' = history b.
Proof.
  intros b'. split_and!; try apply resolve_combat_frame.
  - apply resolve_combat_sublist.
  - apply resolve_combat_after.
Qed.

(** C7: both components of [get_survivor_count] are never negative, and
    after any number of calls of [step] a further call increases
    neither of them. *)
Theorem survivor_count_never_increases b g n :
  let bn := (steps rnd quantum_best_move n b g).1 in
  let gn := (steps rnd quantum_best_move n b g).2 in
  let before := get_survivor_count bn in
  let next := get_survivor_count (after (step rnd quantum_best_move bn gn)) in
  0 ≤ before.1 ∧ 0 ≤ before.2 ∧ next.1 ≤ before.1 ∧ next.2 ≤ before.2.
Proof.
  intros bn gn before next. unfold before, next, get_survivor_count.
  simpl. split_and!; auto using count_team_nonneg, step_count_le.
Qed.

(** C3, as amended: when two soldiers fight and their rolls are exactly
    equal, the first-indexed soldier (roll1) is the one marked dead and
    the second-indexed soldier is not marked. *)
Theorem tie_marks_first_indexed_dead
    i soldier1 j soldier2 dead g roll1 roll2 :
  (i < j)%nat → j ∉ dead → i ∉ dead →
  Soldier.can_fight soldier1 soldier2 = true →
  roll rnd (Soldier.strength soldier1) (random g).1 = Some roll1 →
  roll rnd (Soldier.strength soldier2) (random (random g).2).1
  = Some roll2 →
  (roll1 == roll2)%Q →
  let dead' := {[ i ]} ∪ dead in
  fight rnd i soldier1 (Going dead g) (j, soldier2)
  = Going dead' (random (random g).2).2
  ∧ (i ∈ dead') ∧ (j ∉ dead').
Proof.
  intros Hij Hj Hi Hc H1 H2 Htie dead'. subst dead'.
  rewrite fight_engaged by done. rewrite H1, H2.
  rewrite float_gt_false by (rewrite Htie; apply Qle_refl).
  split_and!; [done|set_solver|].
  rewrite elem_of_union, elem_of_singleton. intros [->|?]; [lia|done].
Qed.

(** C8: a soldier of team A ("Quantum") of strength 100 at (0,0) and a
    soldier of the other team of strength 1 at (1,0), both of range 5,
    in either order in the list: whatever the generator draws, one
    combat resolution returns, removes the second and keeps the first;
    then [get_survivor_count] is (1, 0) and [get_winner] is "Quantum". *)
Theorem strong_soldier_always_wins b g kind_a kind_b team_b :
  float_rounding rnd → team_b ≠ "Quantum" →
  let strong := Soldier.mk 0 0 100 kind_a "Quantum" 5 in
  let weak := Soldier.mk 1 0 1 kind_b team_b 5 in
  soldiers b = [strong; weak] ∨ soldiers b = [weak; strong] →
  ∃ b' g',
    resolve_combat rnd b g = Returned b' g'
    ∧ soldiers b' = [strong]
    ∧ get_survivor_count b' = (1, 0)
    ∧ get_winner b' = Some "Quantum".
Proof.
  intros Hrnd Hteam strong weak Hb.
  destruct (random_range g) as [Hu0 Hu1].
  destruct (random_range (random g).2) as [Hv0 Hv1].
  assert (∃ dead g',
            combat_pass rnd (soldiers b) g = Going dead g'
            ∧ remove_dead dead (soldiers b) = [strong])
    as (dead & g' & Hpass & Hleft).
  { destruct Hb as [-> | ->].
    - destruct (roll_bounds 100 _ Hrnd ltac:(lia) Hu0 Hu1)
        as (r1 & Hr1 & Hlo & _).
      destruct (roll_bounds 1 _ Hrnd ltac:(lia) Hv0 Hv1)
        as (r2 & Hr2 & _ & Hhi).
      eexists _, _. split.
      + apply (combat_pass_duel strong weak g r1 r2); [|done|done].
        unfold Soldier.can_fight, Soldier.distance_to.
        apply andb_true_intro; split; apply bool_decide_eq_true_2;
          simpl; [congruence|lia].
      + rewrite float_gt_true; [apply remove_dead_duel_second|].
        eapply Qle_lt_trans; [apply Hhi|].
        eapply Qlt_le_trans; [|apply Hlo]. done.
    - destruct (roll_bounds 1 _ Hrnd ltac:(lia) Hu0 Hu1)
        as (r1 & Hr1 & _ & Hhi).
      destruct (roll_bounds 100 _ Hrnd ltac:(lia) Hv0 Hv1)
        as (r2 & Hr2 & Hlo & _).
      eexists _, _. split.
      + apply (combat_pass_duel weak strong g r1 r2); [|done|done].
        unfold Soldier.can_fight, Soldier.distance_to.
        apply andb_true_intro; split; apply bool_decide_eq_true_2;
          simpl; [congruence|lia].
      + rewrite float_gt_false; [apply remove_dead_duel_first|].
        apply Qlt_le_weak.
        eapply Qle_lt_trans; [apply Hhi|].
        eapply Qlt_le_trans; [|apply Hlo]. done. }
  eexists _, g'. unfold resolve_combat. rewrite Hpass, Hleft.
  split; [done|]. by unfold get_survivor_count, get_winner.
Qed.

End BattleProperties.

(** ** Queries *)

(** C6: [is_battle_over] is true exactly when [get_survivor_count] has a
    zero component. *)
Theorem is_battle_over_iff_zero_component b :
  is_battle_over b = true
  ↔ (get_survivor_count b).1 = 0 ∨ (get_survivor_count b).2 = 0.
Proof.
  unfold is_battle_over, get_survivor_count. simpl.
  rewrite orb_true_iff, !bool_decide_eq_true. done.
Qed.

(** A count is zero exactly when the list holds no soldier of the label. *)
Lemma count_team_zero_iff label l :
  count_team label l = 0 ↔ ¬ Exists (λ s, Soldier.team s = label) l.
Proof.
  rewrite count_team_zero. split.
  - intros HF HE. apply Exists_exists in HE as (s & Hin & Hs).
    by apply (proj1 (Forall_forall _ _) HF s Hin).
  - intros HE. apply Forall_forall. intros s Hin Hs. apply HE.
    apply Exists_exists. by exists s.
Qed.

Lemma count_team_nonzero_iff label l :
  count_team label l ≠ 0 ↔ Exists (λ s, Soldier.team s = label) l.
Proof.
  rewrite count_team_zero_iff.
  destruct (decide (Exists (λ s, Soldier.team s = label) l)); tauto.
Qed.

(** C5: a team is alive when the list holds a soldier with its label.
    [get_winner] returns the label of the surviving team when exactly
    one of the teams "Quantum" and "Classical" has no live soldier, and
    [None] when both have none or both have some. *)
Theorem get_winner_surviving_team b :
  let alive label :=
    Exists (λ s, Soldier.team s = label) (soldiers b) in
  (get_winner b = Some "Quantum" ↔ alive "Quantum" ∧ ¬ alive "Classical")
  ∧ (get_winner b = Some "Classical"
     ↔ ¬ alive "Quantum" ∧ alive "Classical")
  ∧ (get_winner b = None
     ↔ (¬ alive "Quantum" ∧ ¬ alive "Classical")
       ∨ (alive "Quantum" ∧ alive "Classical")).
Proof.
  intros alive. subst alive. cbv beta. unfold get_winner.
  repeat case_bool_decide; simpl;
    repeat match goal with
    | H : count_team _ _ = 0 |- _ => apply count_team_zero_iff in H
    | H : count_team _ _ ≠ 0 |- _ => apply count_team_nonzero_iff in H
    end;
    split_and!; split; intros; try discriminate; tauto.
Qed.

(** ** The scenarios *)

Lemma no_rounding_float_rounding : float_rounding no_rounding.
Proof. split; [intros a b Hab; exact Hab | intros n _; reflexivity]. Qed.

(** C1: a soldier of team "B" at (3,3) on the 4x4 grid, with both offsets
    drawn as 0.  A random walk would leave it at (3,3); [move_soldiers]
    takes the offsets themselves as the target and puts it at (0,0). *)
Theorem random_walk_forgets_position :
  let dx := (randint (-1) 1 all_one).1 in
  let dy := (randint (-1) 1 (randint (-1) 1 all_one).2).1 in
  let b' := (move_soldiers stay lone_walker all_one).1 in
  soldiers lone_walker = [walker]
  ∧ (Soldier.x walker, Soldier.y walker) = (3, 3)
  ∧ (dx, dy) = (0, 0)
  ∧ (Z.max 0 (Z.min (width b' - 1) (Soldier.x walker + dx)),
     Z.max 0 (Z.min (height b' - 1) (Soldier.y walker + dy))) = (3, 3)
  ∧ soldiers b' = [Soldier.set_position walker 0 0].
Proof. vm_compute. done. Qed.

(** C2: a lone soldier labelled "Classical".  [step] returns; after it
    the turn is 1 and the history has one entry, but the entry counts
    the label "B" and reads (0, 0), while [get_survivor_count] counts
    "Classical" and returns (0, 1). *)
Theorem history_entry_differs_from_survivor_count :
  let b' := after (step no_rounding stay lone_classical all_zero) in
  step no_rounding stay lone_classical all_zero
  = Returned b' (advance 2 all_zero)
  ∧ turn lone_classical = 0 ∧ history lone_classical = History.empty
  ∧ turn b' = 1
  ∧ history b' = History.mk [0] [0] [1]
  ∧ get_survivor_count b' = (0, 1).
Proof. vm_compute. done. Qed.

(** C3, as stated, fails: two soldiers of strength 5 whose draws are both
    0 roll 5 each, and the pass marks index 0, the first-indexed soldier;
    the second-indexed soldier is the survivor. *)
Lemma tie_kills_first_indexed :
  let u1 := (random all_zero).1 in
  let u2 := (random (random all_zero).2).1 in
  soldiers even_duel = [even_a; even_b]
  ∧ match roll no_rounding (Soldier.strength even_a) u1,
          roll no_rounding (Soldier.strength even_b) u2 with
    | Some roll1, Some roll2 => (roll1 == roll2)%Q
    | _, _ => False
    end
  ∧ match combat_pass no_rounding (soldiers even_duel) all_zero with
    | Going dead _ => (0%nat ∈ dead) ∧ (1%nat ∉ dead)
    | Overflow _ => False
    end
  ∧ resolve_combat no_rounding even_duel all_zero
    = Returned (set_soldiers even_duel [even_b]) (advance 2 all_zero).
Proof.
  split_and!; by vm_compute.
Qed.

(** C4, as stated, fails on a grid of width 0: the soldier is clipped to
    x = 0, which is not below the width. *)
Lemma clipping_fails_without_cells :
  let b' := after (step no_rounding stay no_grid all_zero) in
  width b' = 0 ∧ height b' = 0
  ∧ soldiers b' = [Soldier.set_position classical 0 0]
  ∧ ¬ Forall (λ s, 0 ≤ Soldier.x s < width b' ∧ 0 ≤ Soldier.y s < height b')
             (soldiers b').
Proof.
  split_and!; try by vm_compute.
  intros HF. apply Forall_cons in HF as [[Hx _] _]. vm_compute in Hx.
  destruct Hx as [_ Hx]. discriminate Hx.
Qed.

(** ** The theorems at the scenarios *)

Lemma step_positions_in_grid_duel :
  (0 < width duel ∧ 0 < height duel)
  ∧ let b' := after (step no_rounding stay duel all_zero) in
    Forall (λ s, 0 ≤ Soldier.x s < width b' ∧ 0 ≤ Soldier.y s < height b')
           (soldiers b').
Proof.
  assert (0 < width duel) as Hw by (simpl; lia).
  assert (0 < height duel) as Hh by (simpl; lia).
  split; [done|].
  exact (step_positions_in_grid no_rounding stay duel all_zero Hw Hh).
Defined.

Lemma other_team_confined_to_corner_duel :
  (2 ≤ width duel ∧ 2 ≤ height duel)
  ∧ let corner := λ s : Soldier.t,
      Soldier.team s ≠ "Quantum" →
      (Soldier.x s = 0 ∨ Soldier.x s = 1)
      ∧ (Soldier.y s = 0 ∨ Soldier.y s = 1) in
    Forall corner (soldiers (move_soldiers stay duel all_zero).1)
    ∧ Forall corner (soldiers (after (step no_rounding stay duel all_zero))).
Proof.
  assert (2 ≤ width duel) as Hw by (simpl; lia).
  assert (2 ≤ height duel) as Hh by (simpl; lia).
  split; [done|].
  exact (other_team_confined_to_corner no_rounding stay duel all_zero Hw Hh).
Defined.

Lemma tie_marks_first_indexed_dead_even_duel :
  let dead' : gset nat := {[ 0%nat ]} ∪ ∅ in
  fight no_rounding 0 even_a (Going ∅ all_zero) (1%nat, even_b)
  = Going dead' (random (random all_zero).2).2
  ∧ (0%nat ∈ dead') ∧ (1%nat ∉ dead').
Proof.
  eapply (tie_marks_first_indexed_dead
            no_rounding 0 even_a 1 even_b ∅ all_zero).
  - lia.
  - apply not_elem_of_empty.
  - apply not_elem_of_empty.
  - reflexivity.
  - reflexivity.
  - reflexivity.
  - reflexivity.
Defined.

Lemma strong_soldier_always_wins_reversed :
  ∃ b' g',
    resolve_combat no_rounding duel_reversed all_zero = Returned b' g'
    ∧ soldiers b' = [strong_a]
    ∧ get_survivor_count b' = (1, 0)
    ∧ get_winner b' = Some "Quantum".
Proof.
  apply (strong_soldier_always_wins no_rounding duel_reversed all_zero
           "knight" "soldier" "Classical").
  - exact no_rounding_float_rounding.
  - discriminate.
  - right. reflexivity.
Defined.

(** * Further properties of the code *)

(** ** Distance and engagement *)

Lemma distance_to_nonneg (a b : Soldier.t) : 0 ≤ Soldier.distance_to a b.
Proof. unfold Soldier.distance_to. lia. Qed.

Lemma distance_to_sym (a b : Soldier.t) :
  Soldier.distance_to a b = Soldier.distance_to b a.
Proof. unfold Soldier.distance_to. lia. Qed.

(** X1: the Manhattan distance between soldiers is a metric on their
    positions: never negative, symmetric, zero exactly between soldiers
    on the same cell, and it obeys the triangle inequality. *)
Theorem distance_to_metric (a b c : Soldier.t) :
  0 ≤ Soldier.distance_to a b
  ∧ Soldier.distance_to a b = Soldier.distance_to b a
  ∧ (Soldier.distance_to a b = 0
     ↔ Soldier.x a = Soldier.x b ∧ Soldier.y a = Soldier.y b)
  ∧ Soldier.distance_to a c
    ≤ Soldier.distance_to a b + Soldier.distance_to b c.
Proof. unfold Soldier.distance_to. lia. Qed.

Lemma can_fight_true (a b : Soldier.t) :
  Soldier.can_fight a b = true
  ↔ Soldier.team a ≠ Soldier.team b
    ∧ Soldier.distance_to a b ≤ Soldier.range_dist a.
Proof.
  unfold Soldier.can_fight.
  by rewrite andb_true_iff, !bool_decide_eq_true.
Qed.

(** X2: a soldier that can fight another is on a different team, is a
    different soldier, and has a range that is not negative. *)
Theorem can_fight_needs_enemy_and_range (a b : Soldier.t) :
  Soldier.can_fight a b = true →
  Soldier.team a ≠ Soldier.team b ∧ a ≠ b ∧ 0 ≤ Soldier.range_dist a.
Proof.
  intros [Ht Hd]%can_fight_true.
  pose proof (distance_to_nonneg a b) as Hn.
  split_and!; [done|congruence|lia].
Qed.

(** X3: engagement is one-sided only through the range: if [a] can fight
    [b] and the range of [b] is at least that of [a], then [b] can fight
    [a]. *)
Theorem can_fight_back (a b : Soldier.t) :
  Soldier.can_fight a b = true →
  Soldier.range_dist a ≤ Soldier.range_dist b →
  Soldier.can_fight b a = true.
Proof.
  intros [Ht Hd]%can_fight_true Hr. apply can_fight_true.
  pose proof (distance_to_sym a b) as Hs.
  split; [congruence|lia].
Qed.

(** ** Adding soldiers *)

Lemma count_team_app label l1 l2 :
  count_team label (l1 ++ l2) = count_team label l1 + count_team label l2.
Proof.
  induction l1 as [|s l1 IH]; simpl; [by rewrite count_team_nil|].
  rewrite !count_team_cons, IH. lia.
Qed.

Lemma count_team_all label l :
  Forall (λ s, Soldier.team s = label) l →
  count_team label l = Z.of_nat (length l).
Proof.
  induction 1 as [|s l Hs _ IH]; [done|].
  rewrite count_team_cons, IH, bool_decide_eq_true_2 by done.
  simpl length. lia.
Qed.

Lemma count_team_none label l :
  Forall (λ s, Soldier.team s ≠ label) l → count_team label l = 0.
Proof. apply count_team_zero. Qed.

(** X4: [add_soldier] puts the soldier at the end of the list and raises
    the count of its own team by one, leaving every other count and the
    rest of the battlefield as they were. *)
Theorem add_soldier_counts b s label :
  let b' := add_soldier b s in
  soldiers b' = soldiers b ++ [s]
  ∧ count_team label (soldiers b')
    = count_team label (soldiers b)
      + (if bool_decide (Soldier.team s = label) then 1 else 0)
  ∧ width b' = width b ∧ height b' = height b
  ∧ turn b' = turn b ∧ history b' = history b.
Proof.
  simpl. split_and!; try done.
  rewrite count_team_app, count_team_cons, count_team_nil. lia.
Qed.

(** ** Team initialization *)

Lemma set_soldiers_same b : set_soldiers b (soldiers b) = b.
Proof. by destruct b. Qed.

Lemma advance_advance m n g : advance n (advance m g) = advance (m + n) g.
Proof. unfold advance. simpl. f_equal. lia. Qed.

Lemma advance_0 g : advance 0 g = g.
Proof. destruct g as [r u]. unfold advance. simpl. f_equal. lia. Qed.

Lemma randint_advance lo hi g : (randint lo hi g).2 = advance 1 g.
Proof. unfold randint, next_raw, advance. simpl. f_equal. lia. Qed.

Lemma random_advance g : (random g).2 = advance 1 g.
Proof. unfold random, next_raw, advance. simpl. f_equal. lia. Qed.

Lemma spawn_S n team unit_type strength range_dist lo hi b g :
  spawn (S n) team unit_type strength range_dist (lo, hi) b g
  = if bool_decide (lo ≤ hi) then
      let g1 := (randint lo hi g).2 in
      if bool_decide (0 ≤ height b - 1) then
        spawn n team unit_type strength range_dist (lo, hi)
          (add_soldier b
             (Soldier.mk (randint lo hi g).1 (randint 0 (height b - 1) g1).1
                         strength unit_type team range_dist))
          (randint 0 (height b - 1) g1).2
      else ValueError b g1
    else ValueError b g.
Proof. reflexivity. Qed.

Lemma spawn_done n team unit_type strength range_dist lo hi b g :
  lo ≤ hi → 1 ≤ height b →
  ∃ new,
    spawn n team unit_type strength range_dist (lo, hi) b g
    = Done (set_soldiers b (soldiers b ++ new)) (advance (2 * n) g)
    ∧ request_of <$> new = replicate n (unit_type, strength, range_dist)
    ∧ Forall (placed team lo hi (height b)) new.
Proof.
  intros Hx Hy. revert b g Hy. induction n as [|n IH]; intros b g Hy.
  - exists []. simpl. by rewrite app_nil_r, set_soldiers_same, advance_0.
  - rewrite spawn_S, !bool_decide_eq_true_2 by lia. cbv zeta.
    rewrite !randint_advance.
    pose proof (randint_range lo hi g Hx) as Hrx.
    pose proof (randint_range 0 (height b - 1) (advance 1 g) ltac:(lia))
      as Hry.
    set (s := Soldier.mk _ _ strength unit_type team range_dist).
    destruct (IH (add_soldier b s) (advance 1 (advance 1 g)) Hy)
      as (new & -> & Hreq & Hnew).
    exists (s :: new). split_and!.
    + rewrite !advance_advance. unfold add_soldier, set_soldiers. simpl.
      rewrite <- app_assoc. do 2 f_equal. lia.
    + by rewrite fmap_cons, Hreq.
    + constructor; [|done]. unfold placed. subst s.
      cbn [Soldier.x Soldier.y Soldier.team]. split; [done|lia].
Qed.

Lemma requested_cons unit_type count strength range_dist rest :
  requested ((unit_type, (count, strength, range_dist)) :: rest)
  = replicate (Z.to_nat count) (unit_type, strength, range_dist)
    ++ requested rest.
Proof. reflexivity. Qed.

Lemma initialize_team_appends team composition lo hi b g :
  lo ≤ hi → 1 ≤ height b →
  ∃ new,
    initialize_team team composition (lo, hi) b g
    = Done (set_soldiers b (soldiers b ++ new)) (advance (2 * length new) g)
    ∧ request_of <$> new = requested composition
    ∧ Forall (placed team lo hi (height b)) new.
Proof.
  intros Hx Hy. revert b g Hy.
  induction composition as [|[unit_type [[count strength] range_dist]] rest IH];
    intros b g Hy.
  - exists []. simpl. by rewrite app_nil_r, set_soldiers_same, advance_0.
  - destruct (spawn_done (Z.to_nat count) team unit_type strength range_dist
                lo hi b g Hx Hy) as (new1 & Heq1 & Hreq1 & Hnew1).
    destruct (IH (set_soldiers b (soldiers b ++ new1))
                (advance (2 * Z.to_nat count) g) Hy)
      as (new2 & Heq2 & Hreq2 & Hnew2).
    assert (length new1 = Z.to_nat count) as Hlen.
    { by rewrite <- (length_fmap request_of), Hreq1, length_replicate. }
    exists (new1 ++ new2). split_and!.
    + simpl initialize_team. rewrite Heq1, Heq2, advance_advance.
      unfold set_soldiers. simpl. rewrite <- app_assoc, length_app, Hlen.
      do 2 f_equal. lia.
    + by rewrite fmap_app, requested_cons, Hreq1, Hreq2.
    + by apply Forall_app.
Qed.

(** X5: with a non-empty x-range and a grid of height at least 1,
    [initialize_team] ends normally.  It keeps the soldiers already there
    and appends one soldier per requested unit, in the order of the
    composition, each with the requested unit type, strength and range,
    of the given team, with x in the range and y on the grid; it draws
    twice per soldier. *)
Theorem initialize_team_done team composition lo hi b g :
  lo ≤ hi → 1 ≤ height b →
  ∃ new,
    initialize_team team composition (lo, hi) b g
    = Done (set_soldiers b (soldiers b ++ new)) (advance (2 * length new) g)
    ∧ request_of <$> new = requested composition
    ∧ Forall (placed team lo hi (height b)) new.
Proof.
  intros Hx Hy.
  destruct (initialize_team_appends team composition lo hi b g Hx Hy)
    as (new & Heq & Hreq & Hnew).
  by exists new.
Qed.

(** X6: [initialize_team] raises [ValueError] exactly when the
    composition requests at least one soldier and the x-range is empty or
    the grid has no row.  It then raises before any soldier is added: the
    battlefield is as it was, and the generator has made one draw if the
    x-range was fine and none otherwise. *)
Theorem initialize_team_outcome team composition lo hi b g :
  match initialize_team team composition (lo, hi) b g with
  | Done b' g' => requested composition = [] ∨ (lo ≤ hi ∧ 1 ≤ height b)
  | ValueError b' g' =>
      requested composition ≠ [] ∧ (hi < lo ∨ height b < 1)
      ∧ b' = b ∧ g' = (if bool_decide (lo ≤ hi) then advance 1 g else g)
  end.
Proof.
  destruct (decide (lo ≤ hi ∧ 1 ≤ height b)) as [[Hx Hy]|Hbad].
  { destruct (initialize_team_appends team composition lo hi b g Hx Hy)
      as (new & -> & _). by right. }
  induction composition as [|[unit_type [[count strength] range_dist]] rest IH].
  - by left.
  - simpl initialize_team. rewrite requested_cons.
    destruct (Z.to_nat count) as [|n].
    + simpl. destruct (initialize_team team rest (lo, hi) b g); naive_solver.
    + rewrite spawn_S. case_bool_decide as Hx.
      * cbv zeta. rewrite bool_decide_eq_false_2 by lia.
        rewrite randint_advance. split_and!; [done|lia|done|done].
      * split_and!; [done|lia|done|done].
Qed.

(** X7: on the same conditions, [initialize_team] raises the count of
    its team by the number of requested soldiers and leaves the count of
    every other team as it was. *)
Theorem initialize_team_counts team composition lo hi b g label :
  lo ≤ hi → 1 ≤ height b →
  ∃ b' g',
    initialize_team team composition (lo, hi) b g = Done b' g'
    ∧ count_team label (soldiers b')
      = count_team label (soldiers b)
        + (if bool_decide (team = label)
           then Z.of_nat (length (requested composition)) else 0).
Proof.
  intros Hx Hy.
  destruct (initialize_team_appends team composition lo hi b g Hx Hy)
    as (new & -> & Hreq & Hnew).
  eexists _, _. split; [done|]. simpl. rewrite count_team_app. f_equal.
  rewrite <- Hreq, length_fmap. case_bool_decide as Ht.
  - apply count_team_all. eapply Forall_impl; [done|].
    intros s (-> & _). done.
  - apply count_team_none. eapply Forall_impl; [done|].
    intros s (-> & _). done.
Qed.

(** ** Movement, soldier by soldier *)

Section MovementProperties.

Variable quantum_best_move : Z * Z → Rng → (Z * Z) * Rng.

Lemma moved_same_soldier w h s s' :
  moved quantum_best_move w h s s' → same_soldier s s'.
Proof.
  intros [g ->]. unfold move_soldier.
  case_bool_decide.
  - by destruct (quantum_best_move _ g) as [best_move g1].
  - destruct (randint (-1) 1 g) as [dx g1].
    by destruct (randint (-1) 1 g1) as [dy g2].
Qed.

Lemma move_soldiers_same_soldiers b g :
  Forall2 same_soldier (soldiers b)
          (soldiers (move_soldiers quantum_best_move b g).1).
Proof.
  rewrite move_soldiers_soldiers.
  eapply Forall2_impl; [apply move_all_moved|].
  intros s s'. apply moved_same_soldier.
Qed.

(** X8: [move_soldiers] changes positions only: the list keeps its
    length and order, every soldier keeps its strength, unit type, team
    and range, and the grid, the turn and the history are as before. *)
Theorem move_soldiers_changes_positions_only b g :
  let b' := (move_soldiers quantum_best_move b g).1 in
  Forall2 same_soldier (soldiers b) (soldiers b')
  ∧ length (soldiers b') = length (soldiers b)
  ∧ width b' = width b ∧ height b' = height b
  ∧ turn b' = turn b ∧ history b' = history b.
Proof.
  intros b'. pose proof (move_soldiers_same_soldiers b g) as HF.
  split_and!; try apply move_soldiers_frame; [done|].
  symmetry. by eapply Forall2_length.
Qed.

Lemma move_all_draws w h l g :
  (∀ p g', (quantum_best_move p g').2 = g') →
  (move_all quantum_best_move w h l g).2 = advance (2 * walkers l) g.
Proof.
  intros Hpure. revert g. induction l as [|s l IH]; intros g.
  - simpl. by rewrite advance_0.
  - simpl move_all.
    destruct (move_soldier quantum_best_move w h s g) as [s' g1] eqn:Hs.
    specialize (IH g1).
    destruct (move_all quantum_best_move w h l g1) as [l' g2].
    simpl in *. subst g2. unfold walkers. rewrite filter_cons.
    unfold move_soldier in Hs. case_bool_decide as Ht.
    + specialize (Hpure (Soldier.x s, Soldier.y s) g).
      destruct (quantum_best_move _ g) as [best_move g']. simpl in *.
      injection Hs as _ <-. subst g'.
      by rewrite decide_False by (intros Hn; by apply Hn).
    + pose proof (randint_advance (-1) 1 g) as H1.
      destruct (randint (-1) 1 g) as [dx ga]. simpl in H1. subst ga.
      pose proof (randint_advance (-1) 1 (advance 1 g)) as H2.
      destruct (randint (-1) 1 (advance 1 g)) as [dy gb]. simpl in H2.
      subst gb. injection Hs as _ <-.
      rewrite decide_True by done. rewrite !advance_advance.
      simpl length. f_equal. unfold walkers. lia.
Qed.

(** X9: when the external policy does not draw from the generator,
    [move_soldiers] makes exactly two draws for each soldier whose team
    is not "Quantum", and none for the others. *)
Theorem move_soldiers_draws b g :
  (∀ p g', (quantum_best_move p g').2 = g') →
  (move_soldiers quantum_best_move b g).2
  = advance (2 * walkers (soldiers b)) g.
Proof.
  intros Hpure. unfold move_soldiers.
  pose proof (move_all_draws (width b) (height b) (soldiers b) g Hpure) as H.
  by destruct (move_all quantum_best_move (width b) (height b) (soldiers b) g).
Qed.

End MovementProperties.

(** ** Survivors and indices *)

Lemma survivors_from_0 dead l : remove_dead dead l = survivors_from 0 dead l.
Proof. reflexivity. Qed.

Lemma survivors_from_cons k dead s l :
  survivors_from k dead (s :: l)
  = if bool_decide (k ∈ dead) then survivors_from (S k) dead l
    else s :: survivors_from (S k) dead l.
Proof.
  unfold survivors_from. rewrite imap_cons, filter_cons. simpl fst.
  rewrite Nat.add_0_r.
  assert (imap ((λ m : nat, pair (k + m)%nat) ∘ S) l
          = imap (λ m : nat, pair (S k + m)%nat) l) as ->.
  { apply imap_ext. intros m x _. simpl. f_equal. lia. }
  case_bool_decide; case_decide; done.
Qed.

Lemma survivors_from_ext k d1 d2 l :
  (∀ m, (k ≤ m)%nat → m ∈ d1 ↔ m ∈ d2) →
  survivors_from k d1 l = survivors_from k d2 l.
Proof.
  revert k. induction l as [|s l IH]; intros k Hd; [done|].
  rewrite !survivors_from_cons.
  rewrite (IH (S k)) by (intros m Hm; apply Hd; lia).
  destruct (Hd k ltac:(lia)) as [H12 H21].
  repeat case_bool_decide; tauto.
Qed.

Lemma survivors_from_elem k dead l m s :
  l !! m = Some s → ((k + m)%nat ∉ dead) → s ∈ survivors_from k dead l.
Proof.
  revert k m. induction l as [|x l IH]; intros k m Hl Hm; [done|].
  rewrite survivors_from_cons. destruct m as [|m]; simpl in Hl.
  - injection Hl as ->. rewrite Nat.add_0_r in Hm.
    rewrite bool_decide_eq_false_2 by done. left.
  - assert (s ∈ survivors_from (S k) dead l) as Hin.
    { apply (IH (S k) m Hl). by replace (S k + m)%nat with (k + S m)%nat by lia. }
    case_bool_decide; [done|by right].
Qed.

Lemma survivors_from_lookup k dead l a s :
  survivors_from k dead l !! a = Some s →
  ∃ m, ((k + m)%nat ∉ dead) ∧ l !! m = Some s.
Proof.
  revert k a. induction l as [|x l IH]; intros k a Ha; [done|].
  rewrite survivors_from_cons in Ha. case_bool_decide as Hk.
  - destruct (IH _ _ Ha) as (m & Hm & Hl). exists (S m).
    split; [|done]. by replace (k + S m)%nat with (S k + m)%nat by lia.
  - destruct a as [|a]; simpl in Ha.
    + injection Ha as ->. exists 0%nat. by rewrite Nat.add_0_r.
    + destruct (IH _ _ Ha) as (m & Hm & Hl). exists (S m).
      split; [|done]. by replace (k + S m)%nat with (S k + m)%nat by lia.
Qed.

Lemma survivors_from_lookup_pair k dead l a b s s' :
  (a < b)%nat →
  survivors_from k dead l !! a = Some s →
  survivors_from k dead l !! b = Some s' →
  ∃ m n, (m < n)%nat ∧ ((k + m)%nat ∉ dead) ∧ ((k + n)%nat ∉ dead)
         ∧ l !! m = Some s ∧ l !! n = Some s'.
Proof.
  revert k a b. induction l as [|x l IH]; intros k a b Hab Ha Hb; [done|].
  rewrite survivors_from_cons in Ha, Hb.
  assert (∀ m n, (m < n)%nat ∧ ((S k + m)%nat ∉ dead) ∧ ((S k + n)%nat ∉ dead)
                 ∧ l !! m = Some s ∧ l !! n = Some s' →
                 (S m < S n)%nat ∧ ((k + S m)%nat ∉ dead)
                 ∧ ((k + S n)%nat ∉ dead)
                 ∧ (x :: l) !! S m = Some s ∧ (x :: l) !! S n = Some s')
    as Hshift.
  { intros m n (? & Hm & Hn & ? & ?).
    replace (k + S m)%nat with (S k + m)%nat by lia.
    replace (k + S n)%nat with (S k + n)%nat by lia.
    split_and!; try done. lia. }
  case_bool_decide as Hk.
  - destruct (IH _ _ _ Hab Ha Hb) as (m & n & H). exists (S m), (S n). auto.
  - destruct b as [|b]; [lia|]. simpl in Hb. destruct a as [|a]; simpl in Ha.
    + injection Ha as ->.
      destruct (survivors_from_lookup _ _ _ _ _ Hb) as (n & Hn & Hl).
      exists 0%nat, (S n). rewrite Nat.add_0_r.
      replace (k + S n)%nat with (S k + n)%nat by lia.
      split_and!; try done. lia.
    + destruct (IH (S k) a b ltac:(lia) Ha Hb) as (m & n & H).
      exists (S m), (S n). auto.
Qed.

Lemma survivors_from_length k dead l :
  (∀ m, m ∈ dead → (k ≤ m < k + length l)%nat) →
  (length (survivors_from k dead l) + size dead = length l)%nat.
Proof.
  revert k dead. induction l as [|x l IH]; intros k dead Hd.
  - simpl. apply size_empty_iff, elem_of_equiv_empty.
    intros m Hm. apply Hd in Hm. simpl in Hm. lia.
  - rewrite survivors_from_cons. simpl length in *. case_bool_decide as Hk.
    + rewrite (survivors_from_ext (S k) dead (dead ∖ {[ k ]})).
      2:{ intros m Hm. rewrite elem_of_difference, elem_of_singleton.
          split; [intros ?; split; [done|lia] | by intros [? _]]. }
      rewrite (union_difference_singleton_L k dead Hk) at 2.
      rewrite size_union, size_singleton
        by (apply disjoint_singleton_l;
            rewrite elem_of_difference, elem_of_singleton; tauto).
      rewrite <- (IH (S k) (dead ∖ {[ k ]})); [lia|].
      intros m [Hm Hne%not_elem_of_singleton]%elem_of_difference.
      apply Hd in Hm. lia.
    + simpl length. rewrite <- (IH (S k) dead); [lia|].
      intros m Hm. pose proof (Hd m Hm).
      assert (m ≠ k) by (intros ->; done). lia.
Qed.

Lemma remove_dead_empty l : remove_dead ∅ l = l.
Proof.
  rewrite survivors_from_0. generalize 0%nat.
  induction l as [|s l IH]; intros k; [done|].
  rewrite survivors_from_cons, bool_decide_eq_false_2 by set_solver.
  by rewrite IH.
Qed.

(** ** The combat pass *)

Lemma foldl_invariant {A B} (P : A → Prop) (f : A → B → A) (l : list B) a :
  P a → (∀ a' x, x ∈ l → P a' → P (f a' x)) → P (foldl f a l).
Proof.
  revert a. induction l as [|x l IH]; intros a Ha Hf; [done|].
  simpl. apply IH.
  - apply Hf; [left|done].
  - intros a' y Hy. apply Hf. by right.
Qed.

Lemma elem_of_enumerate {A} (l : list A) i x :
  (i, x) ∈ enumerate l ↔ l !! i = Some x.
Proof.
  unfold enumerate. rewrite elem_of_lookup_imap. split.
  - intros (i' & y & [= -> ->] & Hl). done.
  - intros Hl. by exists i, x.
Qed.


Section CombatProperties.

Variable rnd : Q → Q.

(** One meeting either changes nothing, or marks exactly one of the two
    soldiers, both unmarked until then, after two draws, or raises after
    one or two draws because a strength is too large for a float. *)
Lemma fight_cases i s1 j s2 dead g :
  (fight rnd i s1 (Going dead g) (j, s2) = Going dead g
   ∧ ((j ≤ i)%nat ∨ j ∈ dead ∨ i ∈ dead ∨ Soldier.can_fight s1 s2 = false))
  ∨ ((i < j)%nat ∧ (i ∉ dead) ∧ (j ∉ dead)
     ∧ Soldier.can_fight s1 s2 = true
     ∧ ((∃ k, (k = i ∨ k = j)
              ∧ fight rnd i s1 (Going dead g) (j, s2)
                = Going ({[ k ]} ∪ dead) (advance 2 g))
        ∨ (∃ n, (n = 1 ∨ n = 2)%nat
                ∧ fight rnd i s1 (Going dead g) (j, s2)
                  = Overflow (advance n g)
                ∧ (float_limit ≤ Z.abs (Soldier.strength s1)
                   ∨ float_limit ≤ Z.abs (Soldier.strength s2))))).
Proof.
  destruct (decide (j ≤ i)%nat) as [Hji|Hji].
  { left. split; [|by left]. apply fight_skip. by left. }
  destruct (decide (j ∈ dead)) as [Hj|Hj].
  { left. split; [|by right; left]. apply fight_skip. by right; left. }
  destruct (decide (i ∈ dead)) as [Hi|Hi].
  { left. split; [|by right; right; left]. apply fight_skip. by right; right. }
  destruct (Soldier.can_fight s1 s2) eqn:Hc.
  - right. split_and!; [lia|done|done|done|].
    rewrite fight_engaged by (done || lia).
    rewrite !random_advance, advance_advance. simpl Nat.add.
    destruct (roll rnd (Soldier.strength s1) _) as [r1|] eqn:H1.
    + destruct (roll rnd (Soldier.strength s2) _) as [r2|] eqn:H2.
      * left. destruct (float_gt r1 r2); [exists j|exists i]; auto.
      * right. exists 2%nat. apply roll_None in H2. auto.
    + right. exists 1%nat. apply roll_None in H1. auto.
  - left. split; [|by right; right; right]. unfold fight.
    rewrite (bool_decide_eq_false_2 (j ≤ i)%nat) by done.
    rewrite !bool_decide_eq_false_2 by done. cbn [orb]. by rewrite Hc.
Qed.

(** A property kept by every meeting of two listed soldiers is kept by
    the whole pass. *)
Lemma combat_pass_invariant (P : pass → Prop) l g :
  P (Going ∅ g) →
  (∀ i s1 j s2 st, l !! i = Some s1 → l !! j = Some s2 →
                   P st → P (fight rnd i s1 st (j, s2))) →
  P (combat_pass rnd l g).
Proof.
  intros H0 Hstep. unfold combat_pass.
  apply foldl_invariant; [done|].
  intros st [i s1] Hi%elem_of_enumerate Hst. unfold fight_all.
  destruct st as [dead g'|g']; [|done].
  case_bool_decide; [done|].
  apply foldl_invariant; [done|].
  intros st' [j s2] Hj%elem_of_enumerate Hst'. by apply Hstep.
Qed.

Lemma combat_pass_peaceful l g :
  peaceful l → combat_pass rnd l g = Going ∅ g.
Proof.
  intros Hp.
  apply (combat_pass_invariant (λ st, st = Going ∅ g)); [done|].
  intros i s1 j s2 st Hi Hj ->.
  destruct (fight_cases i s1 j s2 ∅ g)
    as [[-> _]|(Hij & _ & _ & Hc & _)]; [done|].
  by rewrite (Hp i j s1 s2 Hij Hi Hj) in Hc.
Qed.

(** X10: when no soldier can fight a soldier listed after it (all on one
    team, or each out of the other's range) [resolve_combat] returns,
    changes nothing and makes no draw. *)
Theorem resolve_combat_peaceful b g :
  peaceful (soldiers b) → resolve_combat rnd b g = Returned b g.
Proof.
  intros Hp. unfold resolve_combat.
  rewrite (combat_pass_peaceful _ g Hp).
  by rewrite remove_dead_empty, set_soldiers_same.
Qed.

(** While the pass goes on, the set of the dead only grows. *)
Lemma fight_going i s1 st p d' g' :
  fight rnd i s1 st p = Going d' g' → ∃ d g, st = Going d g ∧ d ⊆ d'.
Proof.
  destruct st as [dead g|g], p as [j s2]; [|done].
  intros Hf. exists dead, g. split; [done|].
  destruct (fight_cases i s1 j s2 dead g)
    as [[He _]|(_ & _ & _ & _ & [(k & _ & He)|(n & _ & He & _)])];
    rewrite He in Hf; [| |done]; injection Hf as <- <-; set_solver.
Qed.

Lemma fights_going i s1 st lp d' g' :
  foldl (fight rnd i s1) st lp = Going d' g' →
  ∃ d g, st = Going d g ∧ d ⊆ d'.
Proof.
  revert st. induction lp as [|p lp IH]; intros st Hf.
  - exists d', g'. done.
  - simpl in Hf. destruct (IH _ Hf) as (d1 & g1 & H1 & Hsub).
    destruct (fight_going _ _ _ _ _ _ H1) as (d & g & -> & Hsub').
    exists d, g. split; [done|]. by etrans.
Qed.

Lemma fight_all_going l st p d' g' :
  fight_all rnd l st p = Going d' g' → ∃ d g, st = Going d g ∧ d ⊆ d'.
Proof.
  destruct st as [dead g|g], p as [i s1]; [|done].
  unfold fight_all. case_bool_decide.
  - intros [= <- <-]. by exists dead, g.
  - apply fights_going.
Qed.

Lemma fight_alls_going l st lp d' g' :
  foldl (fight_all rnd l) st lp = Going d' g' →
  ∃ d g, st = Going d g ∧ d ⊆ d'.
Proof.
  revert st. induction lp as [|p lp IH]; intros st Hf.
  - exists d', g'. done.
  - simpl in Hf. destruct (IH _ Hf) as (d1 & g1 & H1 & Hsub).
    destruct (fight_all_going _ _ _ _ _ H1) as (d & g & -> & Hsub').
    exists d, g. split; [done|]. by etrans.
Qed.

(** After two soldiers that can fight have met, one of them is marked. *)
Lemma fight_settles i s1 j s2 st d' g' :
  fight rnd i s1 st (j, s2) = Going d' g' →
  (i < j)%nat → Soldier.can_fight s1 s2 = true →
  i ∈ d' ∨ j ∈ d'.
Proof.
  intros Hf Hij Hc. destruct st as [dead g|g]; [|done].
  destruct (fight_cases i s1 j s2 dead g)
    as [[He [?|[?|[?|?]]]]
       |(_ & _ & _ & _ & [(k & [->| ->] & He)|(n & _ & He & _)])];
    rewrite He in Hf; try done; injection Hf as <- <-;
    try lia; try congruence; auto; set_solver.
Qed.

Lemma fights_settle i s1 l k st m s2 d' g' :
  foldl (fight rnd i s1) st (imap (λ m, pair (k + m)%nat) l) = Going d' g' →
  l !! m = Some s2 → (i < k + m)%nat → Soldier.can_fight s1 s2 = true →
  i ∈ d' ∨ (k + m)%nat ∈ d'.
Proof.
  revert k st m. induction l as [|x l IH]; intros k st m Hf Hl Him Hc; [done|].
  rewrite imap_cons in Hf. simpl foldl in Hf.
  assert (imap ((λ m : nat, pair (k + m)%nat) ∘ S) l
          = imap (λ m : nat, pair (S k + m)%nat) l) as Himap.
  { apply imap_ext. intros n y _. simpl. f_equal. lia. }
  rewrite Himap in Hf.
  destruct m as [|m]; simpl in Hl.
  - injection Hl as ->.
    destruct (fights_going _ _ _ _ _ _ Hf) as (d1 & g1 & H1 & Hsub).
    destruct (fight_settles i s1 (k + 0) s2 st d1 g1 H1 Him Hc) as [H|H];
      [left|right]; by apply Hsub.
  - replace (k + S m)%nat with (S k + m)%nat by lia.
    eapply IH; [done|done|lia|done].
Qed.

Lemma fight_all_settles l st i s1 j s2 d' g' :
  fight_all rnd l st (i, s1) = Going d' g' →
  l !! j = Some s2 → (i < j)%nat → Soldier.can_fight s1 s2 = true →
  i ∈ d' ∨ j ∈ d'.
Proof.
  intros Hf Hj Hij Hc. destruct st as [dead g|g]; [|done].
  unfold fight_all in Hf. case_bool_decide as Hi.
  - injection Hf as <- <-. by left.
  - apply (fights_settle i s1 l 0 (Going dead g) j s2 d' g' Hf Hj Hij Hc).
Qed.

Lemma fight_alls_settle l l2 k st m s1 j s2 d' g' :
  foldl (fight_all rnd l) st (imap (λ m, pair (k + m)%nat) l2)
  = Going d' g' →
  l2 !! m = Some s1 → l !! j = Some s2 → (k + m < j)%nat →
  Soldier.can_fight s1 s2 = true →
  (k + m)%nat ∈ d' ∨ j ∈ d'.
Proof.
  revert k st m.
  induction l2 as [|x l2 IH]; intros k st m Hf Hm Hj Hlt Hc; [done|].
  rewrite imap_cons in Hf. simpl foldl in Hf.
  assert (imap ((λ m : nat, pair (k + m)%nat) ∘ S) l2
          = imap (λ m : nat, pair (S k + m)%nat) l2) as Himap.
  { apply imap_ext. intros n y _. simpl. f_equal. lia. }
  rewrite Himap in Hf.
  destruct m as [|m]; simpl in Hm.
  - injection Hm as ->.
    destruct (fight_alls_going _ _ _ _ _ Hf) as (d1 & g1 & H1 & Hsub).
    destruct (fight_all_settles l st (k + 0) s1 j s2 d1 g1 H1 Hj Hlt Hc)
      as [H|H]; [left|right]; by apply Hsub.
  - replace (k + S m)%nat with (S k + m)%nat by lia.
    eapply IH; [done|done|done|lia|done].
Qed.

Lemma combat_pass_settles l g d' g' i j s1 s2 :
  combat_pass rnd l g = Going d' g' →
  (i < j)%nat → l !! i = Some s1 → l !! j = Some s2 →
  Soldier.can_fight s1 s2 = true →
  i ∈ d' ∨ j ∈ d'.
Proof.
  intros Hf Hij Hi Hj Hc.
  apply (fight_alls_settle l l 0 (Going ∅ g) i s1 j s2 d' g' Hf Hi Hj Hij Hc).
Qed.

Lemma survivors_peaceful l g d' g' :
  combat_pass rnd l g = Going d' g' → peaceful (remove_dead d' l).
Proof.
  intros Hf. rewrite survivors_from_0.
  intros a c s s' Hac Ha Hc.
  destruct (survivors_from_lookup_pair _ _ _ _ _ _ _ Hac Ha Hc)
    as (i & j & Hij & Hi & Hj & Hli & Hlj).
  destruct (Soldier.can_fight s s') eqn:Hcf; [|done].
  destruct (combat_pass_settles l g d' g' i j s s' Hf Hij Hli Hlj Hcf); done.
Qed.

Lemma resolve_combat_returned b g b' g' :
  resolve_combat rnd b g = Returned b' g' →
  ∃ dead,
    combat_pass rnd (soldiers b) g = Going dead g'
    ∧ b' = set_soldiers b (remove_dead dead (soldiers b)).
Proof.
  unfold resolve_combat.
  destruct (combat_pass rnd (soldiers b) g) as [dead g1|g1]; [|done].
  intros [= <- <-]. by exists dead.
Qed.

(** X11: when [resolve_combat] returns, no survivor can fight a survivor
    listed after it: every such pair has met during the pass and lost
    one of its two soldiers. *)
Theorem resolve_combat_leaves_peace b g b' g' :
  resolve_combat rnd b g = Returned b' g' → peaceful (soldiers b').
Proof.
  intros (dead & Hpass & ->)%resolve_combat_returned.
  simpl. by eapply survivors_peaceful.
Qed.

(** X12: [resolve_combat] is idempotent: when a pass has returned, a
    second pass right after it returns too, removes nobody and makes no
    draw. *)
Theorem resolve_combat_twice b g b1 g1 :
  resolve_combat rnd b g = Returned b1 g1 →
  resolve_combat rnd b1 g1 = Returned b1 g1.
Proof.
  intros (dead & Hpass & ->)%resolve_combat_returned.
  unfold resolve_combat at 1. simpl soldiers.
  rewrite (combat_pass_peaceful _ g1 (survivors_peaceful _ _ _ _ Hpass)).
  by rewrite remove_dead_empty.
Qed.

(** X13: [resolve_combat] never removes every soldier: of a non-empty
    list at least one soldier survives. *)
Theorem resolve_combat_spares_someone b g :
  soldiers b ≠ [] → soldiers (after (resolve_combat rnd b g)) ≠ [].
Proof.
  intros Hne. rewrite resolve_combat_after.
  set (l := soldiers b) in *.
  assert (match combat_pass rnd l g with
          | Going d _ => ∃ k s, l !! k = Some s ∧ k ∉ d
          | Overflow _ => True
          end) as Hinv.
  { apply (combat_pass_invariant
             (λ st, match st with
                    | Going d _ => ∃ k s, l !! k = Some s ∧ k ∉ d
                    | Overflow _ => True
                    end)).
    - destruct l as [|s l']; [done|]. exists 0%nat, s. split; [done|].
      apply not_elem_of_empty.
    - intros i s1 j s2 [dead g'|g'] Hi Hj Hst; [|done].
      destruct Hst as (k & s & Hk & Halive).
      destruct (fight_cases i s1 j s2 dead g')
        as [[-> _]|(Hij & Hia & Hja & _
                    & [(k' & Hk' & ->)|(n & _ & -> & _)])]; [|  |done].
      { by exists k, s. }
      destruct (decide (k = k')) as [->|Hkk].
      + destruct Hk' as [->| ->].
        * exists j, s2. split; [done|].
          rewrite elem_of_union, elem_of_singleton. intros [?|?]; [lia|done].
        * exists i, s1. split; [done|].
          rewrite elem_of_union, elem_of_singleton. intros [?|?]; [lia|done].
      + exists k, s. split; [done|].
        rewrite elem_of_union, elem_of_singleton. by intros [?|?]. }
  destruct (combat_pass rnd l g) as [dead g'|g']; [|done].
  destruct Hinv as (k & s & Hk & Halive).
  assert (s ∈ survivors_from 0 dead l) as Hin.
  { by apply (survivors_from_elem 0 _ l k s). }
  rewrite survivors_from_0.
  intros Hnil. rewrite Hnil in Hin. by apply elem_of_nil in Hin.
Qed.

(** X14: every fight that is decided removes exactly one soldier and
    makes two draws: when [resolve_combat] returns, the generator has
    advanced by twice the number of soldiers removed.  When it raises,
    the battlefield is as it was and at least one draw has been made. *)
Theorem resolve_combat_draws b g :
  match resolve_combat rnd b g with
  | Returned b' g' =>
      (length (soldiers b') ≤ length (soldiers b))%nat
      ∧ g' = advance (2 * (length (soldiers b) - length (soldiers b'))) g
  | OverflowError b' g' =>
      b' = b ∧ ∃ n, (1 ≤ n)%nat ∧ g' = advance n g
  end.
Proof.
  unfold resolve_combat. set (l := soldiers b).
  assert (match combat_pass rnd l g with
          | Going d g' =>
              g' = advance (2 * size d) g ∧ ∀ k, k ∈ d → (k < length l)%nat
          | Overflow g' => ∃ n, (1 ≤ n)%nat ∧ g' = advance n g
          end) as Hinv.
  { apply (combat_pass_invariant
             (λ st, match st with
                    | Going d g' =>
                        g' = advance (2 * size d) g
                        ∧ ∀ k, k ∈ d → (k < length l)%nat
                    | Overflow g' => ∃ n, (1 ≤ n)%nat ∧ g' = advance n g
                    end)).
    - rewrite size_empty, advance_0. split; [done|].
      intros k Hk. by apply not_elem_of_empty in Hk.
    - intros i s1 j s2 [dead g'|g'] Hi Hj Hst; [|done].
      destruct Hst as [Hg Hd].
      destruct (fight_cases i s1 j s2 dead g')
        as [[-> _]|(Hij & Hia & Hja & _
                    & [(k' & Hk' & ->)|(n & Hn & -> & _)])]; [done| |].
      + split.
        * rewrite size_union, size_singleton, Hg, advance_advance
            by (apply disjoint_singleton_l; by destruct Hk' as [->| ->]).
          f_equal. lia.
        * intros k [->%elem_of_singleton|Hk]%elem_of_union; [|by apply Hd].
          destruct Hk' as [->| ->]; by eapply lookup_lt_Some.
      + exists (2 * size dead + n)%nat. rewrite Hg, advance_advance.
        split; [lia|done]. }
  destruct (combat_pass rnd l g) as [dead g'|g']; [|done].
  destruct Hinv as [-> Hd]. simpl soldiers.
  pose proof (survivors_from_length 0 dead l) as Hlen.
  rewrite <- survivors_from_0 in Hlen.
  specialize (Hlen ltac:(intros m Hm; apply Hd in Hm; lia)).
  split; [lia|]. f_equal. lia.
Qed.

Lemma float_strengths_sublist l1 l2 :
  l1 `sublist_of` l2 → float_strengths l2 → float_strengths l1.
Proof. apply Forall_of_sublist. Qed.

Lemma combat_pass_going l g :
  float_strengths l → ∃ dead g', combat_pass rnd l g = Going dead g'.
Proof.
  intros Hfit.
  apply (combat_pass_invariant (λ st, ∃ dead g', st = Going dead g')).
  - by exists ∅, g.
  - intros i s1 j s2 st Hi Hj (dead & g' & ->).
    pose proof (proj1 (Forall_lookup _ _) Hfit i s1 Hi) as H1.
    pose proof (proj1 (Forall_lookup _ _) Hfit j s2 Hj) as H2.
    simpl in H1, H2.
    destruct (fight_cases i s1 j s2 dead g')
      as [[-> _]|(_ & _ & _ & _ & [(k & _ & ->)|(n & _ & _ & Hbig)])];
      [by eexists _, _|by eexists _, _|lia].
Qed.

Lemma resolve_combat_going b g :
  float_strengths (soldiers b) →
  ∃ dead g',
    resolve_combat rnd b g
    = Returned (set_soldiers b (remove_dead dead (soldiers b))) g'.
Proof.
  intros Hfit. unfold resolve_combat.
  destruct (combat_pass_going (soldiers b) g Hfit) as (dead & g' & ->).
  by exists dead, g'.
Qed.

(** X22: when every strength on the battlefield can be converted to a
    float (magnitude below 2^1024 - 2^970), [resolve_combat] returns, and
    the strengths of the soldiers left can be converted as well. *)
Theorem resolve_combat_returns b g :
  float_strengths (soldiers b) →
  ∃ b' g',
    resolve_combat rnd b g = Returned b' g'
    ∧ float_strengths (soldiers b').
Proof.
  intros Hfit.
  destruct (resolve_combat_going b g Hfit) as (dead & g' & ->).
  eexists _, _. split; [done|]. simpl.
  by eapply float_strengths_sublist; [apply remove_dead_sublist|].
Qed.

(** X23: [resolve_combat] raises [OverflowError] only over a fight: the
    list then holds a soldier that can fight a soldier listed after it,
    one of the two with a strength too large for a float; and the
    battlefield is left as it was. *)
Theorem resolve_combat_raises_over_a_fight b g b' g' :
  resolve_combat rnd b g = OverflowError b' g' →
  b' = b
  ∧ ∃ i j s1 s2,
      (i < j)%nat
      ∧ soldiers b !! i = Some s1 ∧ soldiers b !! j = Some s2
      ∧ Soldier.can_fight s1 s2 = true
      ∧ (float_limit ≤ Z.abs (Soldier.strength s1)
         ∨ float_limit ≤ Z.abs (Soldier.strength s2)).
Proof.
  intros Hr. split; [by eapply resolve_combat_raised|].
  unfold resolve_combat in Hr. set (l := soldiers b) in *.
  assert (match combat_pass rnd l g with
          | Going _ _ => True
          | Overflow _ =>
              ∃ i j s1 s2,
                (i < j)%nat ∧ l !! i = Some s1 ∧ l !! j = Some s2
                ∧ Soldier.can_fight s1 s2 = true
                ∧ (float_limit ≤ Z.abs (Soldier.strength s1)
                   ∨ float_limit ≤ Z.abs (Soldier.strength s2))
          end) as Hinv.
  { apply (combat_pass_invariant
             (λ st, match st with
                    | Going _ _ => True
                    | Overflow _ =>
                        ∃ i j s1 s2,
                          (i < j)%nat ∧ l !! i = Some s1 ∧ l !! j = Some s2
                          ∧ Soldier.can_fight s1 s2 = true
                          ∧ (float_limit ≤ Z.abs (Soldier.strength s1)
                             ∨ float_limit ≤ Z.abs (Soldier.strength s2))
                    end)); [done|].
    intros i s1 j s2 [dead g1|g1] Hi Hj Hst; [|done].
    destruct (fight_cases i s1 j s2 dead g1)
      as [[-> _]|(Hij & _ & _ & Hc
                  & [(k & _ & ->)|(n & _ & -> & Hbig)])]; [done|done|].
    by exists i, j, s1, s2. }
  destruct (combat_pass rnd l g) as [dead g1|g1]; [done|]. done.
Qed.

End CombatProperties.

(** ** Several turns *)

Lemma Forall2_sublist_back {A B} (R : A → B → Prop) l l' k' :
  Forall2 R l l' → k' `sublist_of` l' →
  ∃ k, k `sublist_of` l ∧ Forall2 R k k'.
Proof.
  intros HF. revert k'.
  induction HF as [|a b l l' Hab _ IH]; intros k' Hk'.
  - apply sublist_nil_r in Hk' as ->. by exists [].
  - apply sublist_cons_r in Hk' as [Hk'|(k'' & -> & Hk'')].
    + destruct (IH _ Hk') as (k & Hk & HR). exists k.
      split; [by constructor|done].
    + destruct (IH _ Hk'') as (k & Hk & HR). exists (a :: k).
      split; [by constructor|by constructor].
Qed.

Lemma count_team_pos label l :
  count_team label l ≠ 0 → ∃ s, s ∈ l ∧ Soldier.team s = label.
Proof.
  induction l as [|s l IH]; [done|].
  rewrite count_team_cons. case_bool_decide as Ht; intros Hc.
  - exists s. split; [left|done].
  - destruct IH as (s' & Hin & Hs'); [lia|]. exists s'. split; [by right|done].
Qed.

Section TurnProperties.

Variable rnd : Q → Q.
Variable quantum_best_move : Z * Z → Rng → (Z * Z) * Rng.

Lemma steps_S n b g :
  steps rnd quantum_best_move (S n) b g
  = (after (step rnd quantum_best_move
              (steps rnd quantum_best_move n b g).1
              (steps rnd quantum_best_move n b g).2),
     rng_after (step rnd quantum_best_move
                  (steps rnd quantum_best_move n b g).1
                  (steps rnd quantum_best_move n b g).2)).
Proof. simpl. by destruct (steps rnd quantum_best_move n b g). Qed.

(** X15: a turn never adds a soldier: the soldiers after [step] are, in
    order, soldiers of the list before, each with its strength, unit
    type, team and range, only its position changed. *)
Theorem step_survivors_are_old_soldiers b g :
  ∃ kept,
    kept `sublist_of` soldiers b
    ∧ Forall2 same_soldier kept
              (soldiers (after (step rnd quantum_best_move b g))).
Proof.
  eapply Forall2_sublist_back; [|apply step_soldiers].
  apply move_soldiers_same_soldiers.
Qed.

Lemma step_length_le b g :
  (length (soldiers (after (step rnd quantum_best_move b g)))
   ≤ length (soldiers b))%nat.
Proof.
  etrans; [apply sublist_length, step_soldiers|].
  by rewrite <- (Forall2_length _ _ _
                   (move_soldiers_same_soldiers quantum_best_move b g)).
Qed.

Lemma steps_count_le label b g (n : nat) :
  count_team label (soldiers (steps rnd quantum_best_move n b g).1)
  ≤ count_team label (soldiers b).
Proof.
  induction n as [|n IH]; [simpl; lia|].
  rewrite steps_S. cbn [fst]. etrans; [apply step_count_le|done].
Qed.

(** X16: over any number of turns the soldiers only get fewer: the length
    of the list and the count of every team label after [n] turns are at
    most what they were after [m <= n] turns. *)
Theorem soldiers_only_get_fewer b g (m n : nat) label :
  (m ≤ n)%nat →
  let run k := (steps rnd quantum_best_move k b g).1 in
  (length (soldiers (run n)) ≤ length (soldiers (run m)))%nat
  ∧ 0 ≤ count_team label (soldiers (run n))
    ≤ count_team label (soldiers (run m)).
Proof.
  intros Hmn run. subst run. cbv beta.
  induction Hmn as [|n Hmn [IHl IHc]].
  - pose proof (count_team_nonneg label
                  (soldiers (steps rnd quantum_best_move m b g).1)). lia.
  - rewrite steps_S. cbn [fst].
    set (bn := (steps rnd quantum_best_move n b g).1) in *.
    set (gn := (steps rnd quantum_best_move n b g).2).
    pose proof (step_length_le bn gn).
    pose proof (step_count_le rnd quantum_best_move label bn gn).
    pose proof (count_team_nonneg label
                  (soldiers (after (step rnd quantum_best_move bn gn)))).
    lia.
Qed.

Lemma float_strengths_same l l' :
  Forall2 same_soldier l l' → float_strengths l → float_strengths l'.
Proof.
  intros HF. unfold float_strengths.
  induction HF as [|s s' l l' (Hs & _) _ IH]; [done|].
  rewrite !Forall_cons. intros [H1 H2]. split; [by rewrite Hs|auto].
Qed.

(** With strengths that fit a float a turn returns, and the strengths of
    the soldiers left fit a float again. *)
Lemma step_returns b g :
  float_strengths (soldiers b) →
  ∃ b' g',
    step rnd quantum_best_move b g = Returned b' g'
    ∧ float_strengths (soldiers b').
Proof.
  intros Hfit. unfold step.
  pose proof (move_soldiers_same_soldiers quantum_best_move b g) as Hsame.
  destruct (move_soldiers quantum_best_move b g) as [b1 g1]. simpl in Hsame.
  pose proof (float_strengths_same _ _ Hsame Hfit) as Hfit1.
  destruct (resolve_combat_going rnd b1 g1 Hfit1) as (dead & g2 & ->).
  eexists _, _. split; [done|]. simpl.
  by eapply float_strengths_sublist; [apply remove_dead_sublist|].
Qed.

Lemma steps_float_strengths b g (n : nat) :
  float_strengths (soldiers b) →
  float_strengths (soldiers (steps rnd quantum_best_move n b g).1).
Proof.
  intros Hfit. induction n as [|n IH]; [done|].
  rewrite steps_S. cbn [fst].
  destruct (step_returns (steps rnd quantum_best_move n b g).1
              (steps rnd quantum_best_move n b g).2 IH)
    as (b' & g' & -> & Hfit'). done.
Qed.

(** X17: when every strength on the battlefield can be converted to a
    float, [n] calls of [step] all return; after them the turn counter
    has grown by [n] and each list of the history by [n] entries: the
    turn numbers in order, and for each turn the count of the labels
    "Quantum" and "B" among the soldiers left after that turn. *)
Theorem steps_bookkeeping b g (n : nat) :
  float_strengths (soldiers b) →
  let run k := (steps rnd quantum_best_move k b g).1 in
  let h := history b in
  let h' := history (run n) in
  let remaining k := soldiers (run k) in
  turn (run n) = turn b + Z.of_nat n
  ∧ History.turn h'
    = History.turn h ++ ((λ k, turn b + Z.of_nat k) <$> seq 1 n)
  ∧ History.team_a_count h'
    = History.team_a_count h
      ++ ((λ k, count_team "Quantum" (remaining k)) <$> seq 1 n)
  ∧ History.team_b_count h'
    = History.team_b_count h
      ++ ((λ k, count_team "B" (remaining k)) <$> seq 1 n).
Proof.
  intros Hfit. cbv zeta beta.
  induction n as [|n (IHt & IHh & IHa & IHb)].
  - simpl. rewrite !app_nil_r. split_and!; try done. lia.
  - rewrite seq_S, !fmap_snoc, !app_assoc, <- IHh, <- IHa, <- IHb.
    simpl Nat.add. rewrite !steps_S. cbn [fst].
    pose proof (steps_float_strengths b g n Hfit) as Hfitn.
    set (bn := (steps rnd quantum_best_move n b g).1) in *.
    set (gn := (steps rnd quantum_best_move n b g).2).
    pose proof (step_bookkeeping rnd quantum_best_move bn gn) as Hbook.
    destruct (step_returns bn gn Hfitn) as (b' & g' & Hstep & _).
    rewrite Hstep in *. cbn [after].
    destruct Hbook as (Ht & Ha & Hb & Hh).
    rewrite Ht, Ha, Hb, Hh, IHt.
    split_and!; [lia| |done|done]. do 2 f_equal. lia.
Qed.

(** X24: when [step] raises [OverflowError], the soldiers have moved
    but none is removed, the turn is not counted and nothing is added
    to the history. *)
Theorem step_raises_after_moving b g b' g' :
  step rnd quantum_best_move b g = OverflowError b' g' →
  b' = (move_soldiers quantum_best_move b g).1
  ∧ turn b' = turn b ∧ history b' = history b.
Proof.
  unfold step.
  pose proof (move_soldiers_frame quantum_best_move b g) as Hm.
  destruct (move_soldiers quantum_best_move b g) as [b1 g1].
  destruct (resolve_combat rnd b1 g1) as [b2 g2|b2 g2] eqn:Hr; [done|].
  intros [= <- <-]. apply resolve_combat_raised in Hr as ->.
  simpl in Hm. by destruct Hm as (_ & _ & -> & ->).
Qed.

(** ** The end of a battle *)

(** X18: [is_battle_over] is true exactly when no soldier is labelled
    "Quantum" or no soldier is labelled "Classical"; soldiers with any
    other label, such as "B", do not keep a battle going. *)
Theorem is_battle_over_by_labels b :
  is_battle_over b = true
  ↔ Forall (λ s, Soldier.team s ≠ "Quantum") (soldiers b)
    ∨ Forall (λ s, Soldier.team s ≠ "Classical") (soldiers b).
Proof.
  unfold is_battle_over.
  by rewrite orb_true_iff, !bool_decide_eq_true, !count_team_zero.
Qed.

(** X19: when [get_winner] names a team, the battle is over, the winner
    is "Quantum" or "Classical", some soldier of the winning team is
    alive and no soldier of the other of these two teams is. *)
Theorem get_winner_sound b t :
  get_winner b = Some t →
  is_battle_over b = true
  ∧ (∃ s, s ∈ soldiers b ∧ Soldier.team s = t)
  ∧ ((t = "Quantum"
      ∧ Forall (λ s, Soldier.team s ≠ "Classical") (soldiers b))
     ∨ (t = "Classical"
        ∧ Forall (λ s, Soldier.team s ≠ "Quantum") (soldiers b))).
Proof.
  unfold get_winner, is_battle_over.
  repeat case_bool_decide; simpl; intros [= <-]; split_and!; try done.
  - by apply count_team_pos.
  - right. split; [done|]. by apply count_team_zero.
  - by apply count_team_pos.
  - left. split; [done|]. by apply count_team_zero.
Qed.

(** X20: a battle that is over stays over, whatever number of turns
    follows. *)
Theorem battle_over_stays_over b g (n : nat) :
  is_battle_over b = true →
  is_battle_over (steps rnd quantum_best_move n b g).1 = true.
Proof.
  unfold is_battle_over. rewrite !orb_true_iff, !bool_decide_eq_true.
  pose proof (steps_count_le "Quantum" b g n) as Ha.
  pose proof (steps_count_le "Classical" b g n) as Hb.
  pose proof (count_team_nonneg "Quantum"
                (soldiers (steps rnd quantum_best_move n b g).1)).
  pose proof (count_team_nonneg "Classical"
                (soldiers (steps rnd quantum_best_move n b g).1)).
  lia.
Qed.

(** X21: the winner never changes sides: if [get_winner] names a team,
    then after any number of turns it names the same team or nobody. *)
Theorem winner_never_changes b g (n : nat) t :
  get_winner b = Some t →
  let b' := (steps rnd quantum_best_move n b g).1 in
  get_winner b' = Some t ∨ get_winner b' = None.
Proof.
  intros Hw b'. subst b'. revert Hw. unfold get_winner.
  pose proof (steps_count_le "Quantum" b g n) as Ha.
  pose proof (steps_count_le "Classical" b g n) as Hb.
  pose proof (count_team_nonneg "Quantum"
                (soldiers (steps rnd quantum_best_move n b g).1)).
  pose proof (count_team_nonneg "Classical"
                (soldiers (steps rnd quantum_best_move n b g).1)).
  repeat case_bool_decide; simpl; intros [= <-]; auto; lia.
Qed.

End TurnProperties.

(** ** The further properties at the scenarios *)

Lemma can_fight_needs_enemy_and_range_duel :
  Soldier.team strong_a ≠ Soldier.team weak_b
  ∧ strong_a ≠ weak_b ∧ 0 ≤ Soldier.range_dist strong_a.
Proof.
  apply (can_fight_needs_enemy_and_range strong_a weak_b). reflexivity.
Defined.

Lemma can_fight_back_duel : Soldier.can_fight weak_b strong_a = true.
Proof.
  apply (can_fight_back strong_a weak_b); [reflexivity|simpl; lia].
Defined.

Lemma initialize_team_done_three :
  ∃ new,
    initialize_team "Quantum" three_soldiers (0, 0) (init 4 4) all_zero
    = Done (set_soldiers (init 4 4) (soldiers (init 4 4) ++ new))
           (advance (2 * length new) all_zero)
    ∧ request_of <$> new = requested three_soldiers
    ∧ Forall (placed "Quantum" 0 0 (height (init 4 4))) new.
Proof.
  apply (initialize_team_done "Quantum" three_soldiers 0 0 (init 4 4)
           all_zero); simpl; lia.
Defined.

Lemma initialize_team_counts_three :
  ∃ b' g',
    initialize_team "Quantum" three_soldiers (0, 0) duel all_zero
    = Done b' g'
    ∧ count_team "Quantum" (soldiers b')
      = count_team "Quantum" (soldiers duel)
        + (if bool_decide ("Quantum" = "Quantum")
           then Z.of_nat (length (requested three_soldiers)) else 0).
Proof.
  apply (initialize_team_counts "Quantum" three_soldiers 0 0 duel all_zero
           "Quantum"); simpl; lia.
Defined.

Lemma move_soldiers_draws_duel :
  (move_soldiers stay duel all_zero).2
  = advance (2 * walkers (soldiers duel)) all_zero.
Proof.
  apply (move_soldiers_draws stay duel all_zero). intros p g'. reflexivity.
Defined.

Lemma standoff_peaceful : peaceful (soldiers standoff).
Proof.
  intros i j s1 s2 Hij Hi Hj.
  destruct i as [|[|i]], j as [|[|j]]; try lia; simpl in Hi, Hj;
    try discriminate.
  injection Hi as <-. injection Hj as <-. reflexivity.
Qed.

Lemma resolve_combat_peaceful_standoff :
  resolve_combat no_rounding standoff all_zero = Returned standoff all_zero.
Proof.
  apply (resolve_combat_peaceful no_rounding standoff all_zero).
  exact standoff_peaceful.
Defined.

Lemma resolve_combat_leaves_peace_duel :
  peaceful (soldiers (set_soldiers duel [strong_a])).
Proof.
  apply (resolve_combat_leaves_peace no_rounding duel all_zero
           (set_soldiers duel [strong_a]) (advance 2 all_zero)).
  vm_compute. reflexivity.
Defined.

Lemma resolve_combat_twice_duel :
  resolve_combat no_rounding (set_soldiers duel [strong_a])
                 (advance 2 all_zero)
  = Returned (set_soldiers duel [strong_a]) (advance 2 all_zero).
Proof.
  apply (resolve_combat_twice no_rounding duel all_zero).
  vm_compute. reflexivity.
Defined.

Lemma resolve_combat_spares_someone_duel :
  soldiers (after (resolve_combat no_rounding duel all_zero)) ≠ [].
Proof.
  apply (resolve_combat_spares_someone no_rounding duel all_zero).
  discriminate.
Defined.

Lemma duel_float_strengths : float_strengths (soldiers duel).
Proof. repeat (constructor; [reflexivity|]). constructor. Qed.

Lemma resolve_combat_returns_duel :
  ∃ b' g',
    resolve_combat no_rounding duel all_zero = Returned b' g'
    ∧ float_strengths (soldiers b').
Proof.
  apply (resolve_combat_returns no_rounding duel all_zero).
  exact duel_float_strengths.
Defined.

Lemma resolve_combat_raises_over_a_fight_giant :
  giant_duel = giant_duel
  ∧ ∃ i j s1 s2,
      (i < j)%nat
      ∧ soldiers giant_duel !! i = Some s1
      ∧ soldiers giant_duel !! j = Some s2
      ∧ Soldier.can_fight s1 s2 = true
      ∧ (float_limit ≤ Z.abs (Soldier.strength s1)
         ∨ float_limit ≤ Z.abs (Soldier.strength s2)).
Proof.
  apply (resolve_combat_raises_over_a_fight no_rounding giant_duel all_zero
           giant_duel (advance 2 all_zero)).
  vm_compute. reflexivity.
Defined.

Lemma step_raises_after_moving_giant :
  let b' := (move_soldiers stay giant_duel all_zero).1 in
  b' = (move_soldiers stay giant_duel all_zero).1
  ∧ turn b' = turn giant_duel ∧ history b' = history giant_duel.
Proof.
  apply (step_raises_after_moving no_rounding stay giant_duel all_zero
           (move_soldiers stay giant_duel all_zero).1 (advance 4 all_zero)).
  vm_compute. reflexivity.
Defined.

Lemma soldiers_only_get_fewer_duel :
  let run k := (steps no_rounding stay k duel all_zero).1 in
  (length (soldiers (run 3%nat)) ≤ length (soldiers (run 1%nat)))%nat
  ∧ 0 ≤ count_team "Classical" (soldiers (run 3%nat))
    ≤ count_team "Classical" (soldiers (run 1%nat)).
Proof.
  apply (soldiers_only_get_fewer no_rounding stay duel all_zero 1 3
           "Classical"). lia.
Defined.

Lemma steps_bookkeeping_duel :
  let run k := (steps no_rounding stay k duel all_zero).1 in
  let h := history duel in
  let h' := history (run 2%nat) in
  let remaining k := soldiers (run k) in
  turn (run 2%nat) = turn duel + Z.of_nat 2
  ∧ History.turn h'
    = History.turn h ++ ((λ k, turn duel + Z.of_nat k) <$> seq 1 2)
  ∧ History.team_a_count h'
    = History.team_a_count h
      ++ ((λ k, count_team "Quantum" (remaining k)) <$> seq 1 2)
  ∧ History.team_b_count h'
    = History.team_b_count h
      ++ ((λ k, count_team "B" (remaining k)) <$> seq 1 2).
Proof.
  apply (steps_bookkeeping no_rounding stay duel all_zero 2).
  exact duel_float_strengths.
Defined.

Lemma get_winner_sound_lone_classical :
  is_battle_over lone_classical = true
  ∧ (∃ s, s ∈ soldiers lone_classical ∧ Soldier.team s = "Classical")
  ∧ (("Classical" = "Quantum"
      ∧ Forall (λ s, Soldier.team s ≠ "Classical") (soldiers lone_classical))
     ∨ ("Classical" = "Classical"
        ∧ Forall (λ s, Soldier.team s ≠ "Quantum")
                 (soldiers lone_classical))).
Proof.
  apply (get_winner_sound lone_classical "Classical"). reflexivity.
Defined.

Lemma battle_over_stays_over_lone_classical :
  is_battle_over (steps no_rounding stay 2 lone_classical all_zero).1 = true.
Proof.
  apply (battle_over_stays_over no_rounding stay lone_classical all_zero 2).
  reflexivity.
Defined.

Lemma winner_never_changes_lone_classical :
  let b' := (steps no_rounding stay 2 lone_classical all_zero).1 in
  get_winner b' = Some "Classical" ∨ get_winner b' = None.
Proof.
  apply (winner_never_changes no_rounding stay lone_classical all_zero 2
           "Classical"). reflexivity.
Defined.
